(** * Grid resource and QoS simulator (app.py): scheduling and evaluation engine

    A shallow embedding of the engine of [app.py]: the generators
    [create_nodes] and [create_tasks], the four schedulers [round_robin],
    [shortest_job_first], [economic] and [predictive_qos], the evaluator
    [evaluate], and the aggregation of the result table.

    Conventions of the embedding.
    - Python [int] is [Z]; Python [float] is read as the exact rational [Q]
      it approximates, compared with [==].  Binary64 rounding is not part
      of the model (a decimal tie that binary64 cannot represent may round
      the other way in [round]); the module [Binary64] replays the
      documented figures on binary64 floats.
    - A Python list of node dicts is a [list Node] whose positions stand for
      the identities of the dict objects: [node["Load"] += w] on the object
      at position [r] is [alter (add_load w) r].  A sorted copy of the list
      holds the same objects, so it is a list of positions.
    - The module [random] is an explicit source [Random], threaded through
      every function that draws from it.
    - A raised exception is [Raise e] (the updates made before it are
      dropped with it); a normal return is [Ok v]. *)

From stdpp Require Import base list strings pretty sorting.
From Stdlib Require Import ZArith QArith Qround Qminmax Lia Lqa.
From Stdlib Require Floats Uint63.

Local Open Scope Z_scope.

(** ** Exceptions and results *)

Inductive exception : Set :=
| ZeroDivisionError
| IndexError
| StopIteration.

Inductive result (A : Type) : Type :=
| Ok (a : A)
| Raise (e : exception).
Arguments Ok {A} a.
Arguments Raise {A} e.

(** The error monad, with stdpp's [x ← m; k] notation. *)
#[global] Instance result_ret : MRet result := λ A a, Ok a.
#[global] Instance result_bind : MBind result := λ A B f m,
  match m with
  | Ok a => f a
  | Raise e => Raise e
  end.

(** ** Data model: the dicts built by [create_nodes] and [create_tasks] *)

Record Node : Type := mkNode {
  id : string;
  CPU : Z;
  Memory : Z;
  Bandwidth : Z;
  Reliability : Q;
  Cost : Q;
  Load : Z
}.

Record Task : Type := mkTask {
  task_id : string;
  Workload : Z;
  Priority : string;
  SLA_Time : Z
}.

(** An assignment is the tuple [(task["id"], node["id"])]. *)
Abbreviation assignment := (string * string)%type.

(** One row of the result table built by [evaluate]; [SLA_Met] holds the
    check mark or the cross the source stores as a string. *)
Inductive mark : Set := CheckMark | CrossMark.

#[global] Instance mark_eq_dec : EqDecision mark.
Proof. solve_decision. Defined.

Record EvalRecord : Type := mkEvalRecord {
  rec_Task : string;
  rec_Node : string;
  Latency : Q;
  Throughput : Q;
  rec_Reliability : Q;
  QoS_Score : Q;
  Exec_Time : Q;
  rec_SLA_Time : Z;
  SLA_Met : mark
}.

(** ** Python primitives used by the engine *)

(** [a % b] on list positions: raises on [b = 0]. *)
Definition py_mod (a b : nat) : result nat :=
  match b with
  | O => Raise ZeroDivisionError
  | S _ => Ok (a mod b)%nat
  end.

(** [l[i]] for a non-negative index. *)
Definition getitem {A} (l : list A) (i : nat) : result A :=
  match l !! i with
  | Some x => Ok x
  | None => Raise IndexError
  end.

(** [a / b] (true division); ints are injected with [inject_Z]. *)
Definition py_div (a b : Q) : result Q :=
  if Qeq_bool b 0 then Raise ZeroDivisionError else Ok (a / b)%Q.

Definition Qltb (x y : Q) : bool := negb (Qle_bool y x).

#[global] Instance Qeq_rel_dec : RelDecision Qeq := Qeq_dec.

(** [max(a, b)] and [min(a, b)] return the first argument unless the second
    is strictly larger (resp. smaller). *)
Definition py_max (a b : Q) : Q := if Qltb a b then b else a.
Definition py_min (a b : Q) : Q := if Qltb b a then b else a.

(** Rounding of a rational to the nearest integer, ties to even. *)
Definition round_half_even (q : Q) : Z :=
  let f := Qfloor q in
  let r := (q - inject_Z f)%Q in
  if Qltb r (1 # 2) then f
  else if Qltb (1 # 2) r then f + 1
  else if Z.even f then f else f + 1.

(** [round(x, ndigits)] for [ndigits >= 0]. *)
Definition py_round (x : Q) (ndigits : nat) : Q :=
  let scale := Pos.of_nat (10 ^ ndigits) in
  Qmake (round_half_even (x * inject_Z (Zpos scale))) scale.

(** [next(x for x in l if x["id"] == i)]. *)
Definition next_by_id {A} (get_id : A → string) (l : list A) (i : string)
    : result A :=
  match List.find (λ x, bool_decide (get_id x = i)) l with
  | Some x => Ok x
  | None => Raise StopIteration
  end.

(** ** The random source

    The source is a sequence of raw draws and a cursor; every primitive of
    the module [random] consumes one draw. *)

Record Random : Type := mkRandom {
  draws : nat → Z;
  cursor : nat
}.

Definition next_draw (g : Random) : Z * Random :=
  (draws g (cursor g), mkRandom (draws g) (S (cursor g))).

(** [random._randbelow(n)] for [n > 0]: an int in [[0, n)]. *)
Definition randbelow (n : Z) (g : Random) : Z * Random :=
  let '(d, g') := next_draw g in (d mod n, g').

(** [random.randint(a, b)] is [a + _randbelow(b - a + 1)]. *)
Definition randint (a b : Z) (g : Random) : Z * Random :=
  let '(k, g') := randbelow (b - a + 1) g in (a + k, g').

(** [random.choice(seq)] is [seq[_randbelow(len(seq))]]; the sequence is
    the non-empty literal [x :: xs]. *)
Definition choice {A} (x : A) (xs : list A) (g : Random) : A * Random :=
  let '(k, g') := randbelow (Z.of_nat (length (x :: xs))) g in
  (nth (Z.to_nat k) (x :: xs) x, g').

(** [random.random()]: a multiple of [2^-53] in [[0, 1)]. *)
Definition random (g : Random) : Q * Random :=
  let '(d, g') := next_draw g in
  (Qmake (d mod 2 ^ 53) (2 ^ 53), g').

(** [random.uniform(a, b)] is [a + (b - a) * random()]. *)
Definition uniform (a b : Q) (g : Random) : Q * Random :=
  let '(u, g') := random g in ((a + (b - a) * u)%Q, g').

(** ** Grid setup *)

(** The f-strings [f"Node-{i+1}"] and [f"Task-{i+1}"]. *)
Definition node_name (i : nat) : string := "Node-" +:+ pretty (i + 1)%nat.
Definition task_name (i : nat) : string := "Task-" +:+ pretty (i + 1)%nat.

(** The list comprehension of [create_nodes], from index [i] on. *)
Fixpoint create_nodes_from (i n : nat) (g : Random) : list Node * Random :=
  match n with
  | O => ([], g)
  | S n' =>
      let '(cpu, g1) := randint 2 10 g in
      let '(memory, g2) := randint 8 32 g1 in
      let '(bandwidth, g3) := randint 50 150 g2 in
      let '(rel, g4) := uniform (85 # 100) (99 # 100) g3 in
      let '(cost, g5) := uniform (5 # 10) 3 g4 in
      let node := mkNode (node_name i) cpu memory
                         bandwidth (py_round rel 2) (py_round cost 2) 0 in
      let '(rest, g6) := create_nodes_from (S i) n' g5 in
      (node :: rest, g6)
  end.

Definition create_nodes (n : nat) (g : Random) : list Node * Random :=
  create_nodes_from 0 n g.

Fixpoint create_tasks_from (i n : nat) (g : Random) : list Task * Random :=
  match n with
  | O => ([], g)
  | S n' =>
      let '(workload, g1) := randint 3 10 g in
      let '(prio, g2) := choice "Low" ["Medium"; "High"] g1 in
      let '(sla, g3) := randint 3 9 g2 in
      let task := mkTask (task_name i) workload prio sla in
      let '(rest, g4) := create_tasks_from (S i) n' g3 in
      (task :: rest, g4)
  end.

Definition create_tasks (n : nat) (g : Random) : list Task * Random :=
  create_tasks_from 0 n g.

(** [node["Load"] += w]. *)
Definition add_load (w : Z) (n : Node) : Node :=
  mkNode (id n) (CPU n) (Memory n) (Bandwidth n) (Reliability n) (Cost n)
         (Load n + w).

(** The ranges the generators draw from. *)
Definition node_in_range (n : Node) : Prop :=
  2 ≤ CPU n ≤ 10 ∧ 8 ≤ Memory n ≤ 32 ∧ 50 ≤ Bandwidth n ≤ 150
  ∧ (85 # 100 <= Reliability n)%Q ∧ (Reliability n <= 99 # 100)%Q
  ∧ (5 # 10 <= Cost n)%Q ∧ (Cost n <= 3)%Q
  ∧ Load n = 0.

Definition task_in_range (t : Task) : Prop :=
  3 ≤ Workload t ≤ 10 ∧ 3 ≤ SLA_Time t ≤ 9
  ∧ Priority t ∈ ["Low"; "Medium"; "High"].

(** ** [sorted(l, key=...)]

    Python's [sorted] is a stable sort that compares keys with [<] only.
    On keys that [<] orders as a strict weak order every stable sort returns
    the same list; the embedding uses stable insertion. *)

Section Sorted.
Context {A K : Type} (lt : K → K → bool) (key : A → K).

Fixpoint insert_by (x : A) (l : list A) : list A :=
  match l with
  | [] => [x]
  | y :: l' => if lt (key y) (key x) then y :: insert_by x l'
               else x :: y :: l'
  end.

Fixpoint sorted (l : list A) : list A :=
  match l with
  | [] => []
  | x :: l' => insert_by x (sorted l')
  end.

(** [sorted(l, key=..., reverse=True)]: CPython reverses the list, sorts
    it stably, and reverses the result, so equal keys keep their order. *)
Definition sorted_reverse (l : list A) : list A :=
  reverse (sorted (reverse l)).

(** [key_le x y]: [x] does not have to come after [y]. *)
Definition key_le (x y : A) : Prop := lt (key y) (key x) = false.
End Sorted.

(** [enumerate(l)]: the positions of a list paired with its elements.  A
    sorted copy of [nodes] is a sorted copy of [enumerate nodes]: the key is
    read from the element, the object is named by its position. *)
Definition enumerate {A} (l : list A) : list (nat * A) :=
  imap (λ i x, (i, x)) l.

(** ** The [for i, task in enumerate(tasks)] loop

    The loop body maps the loop state to the appended assignment and the
    next state, or raises. *)

Section Loop.
Context {St : Type} (body : nat → Task → St → result (assignment * St)).

Fixpoint for_enumerate (i : nat) (tasks : list Task) (s : St)
  : result (list assignment * St) :=
  match tasks with
  | [] => Ok ([], s)
  | task :: rest =>
      '(a, s1) ← body i task s;
      '(assignments, s2) ← for_enumerate (S i) rest s1;
      Ok (a :: assignments, s2)
  end.
End Loop.

(** ** Scheduling algorithms

    Each scheduler returns its assignment list together with the node list
    as the in-place updates left it. *)

Definition round_robin_body (i : nat) (task : Task) (nodes : list Node)
    : result (assignment * list Node) :=
  k ← py_mod i (length nodes);
  node ← getitem nodes k;
  let nodes' := alter (add_load (Workload task)) k nodes in
  Ok ((task_id task, id node), nodes').

Definition round_robin (nodes : list Node) (tasks : list Task)
    : result (list assignment * list Node) :=
  for_enumerate round_robin_body 0 tasks nodes.

(** Loop body of [shortest_job_first] and [economic]: [nodes_sorted] holds
    the positions in [nodes] of the objects of the sorted copy. *)
Definition sorted_body (nodes_sorted : list nat) (i : nat) (task : Task)
    (nodes : list Node) : result (assignment * list Node) :=
  k ← py_mod i (length nodes);
  r ← getitem nodes_sorted k;
  node ← getitem nodes r;
  let nodes' := alter (add_load (Workload task)) r nodes in
  Ok ((task_id task, id node), nodes').

Definition shortest_job_first (nodes : list Node) (tasks : list Task)
    : result (list assignment * list Node) :=
  let tasks_sorted := sorted Z.ltb Workload tasks in
  let nodes_sorted := (sorted Z.ltb (Load ∘ snd) (enumerate nodes)).*1 in
  for_enumerate (sorted_body nodes_sorted) 0 tasks_sorted nodes.

Definition economic (nodes : list Node) (tasks : list Task)
    : result (list assignment * list Node) :=
  let nodes_sorted := (sorted Qltb (Cost ∘ snd) (enumerate nodes)).*1 in
  for_enumerate (sorted_body nodes_sorted) 0 tasks nodes.

(** The three assignments of the inner loop of [predictive_qos]. *)
Definition fluctuate (node : Node) (g : Random) : Node * Random :=
  let '(d1, g1) := choice (-1) [0; 1] g in
  let cpu := Z.max 1 (CPU node + d1) in
  let '(d2, g2) := choice (-10) [0; 10] g1 in
  let bandwidth := Z.max 10 (Bandwidth node + d2) in
  let '(d3, g3) := choice (- (1 # 100))%Q [0%Q; 1 # 100] g2 in
  let rel := py_max (7 # 10) (py_min (99 # 100) (Reliability node + d3)) in
  (mkNode (id node) cpu (Memory node) bandwidth rel (Cost node) (Load node),
   g3).

(** [for node in nodes: ...] *)
Fixpoint fluctuate_all (nodes : list Node) (g : Random)
    : list Node * Random :=
  match nodes with
  | [] => ([], g)
  | node :: rest =>
      let '(node', g1) := fluctuate node g in
      let '(rest', g2) := fluctuate_all rest g1 in
      (node' :: rest', g2)
  end.

(** The sort key of [predictive_qos]. *)
Definition score (x : Node) : Q :=
  (inject_Z (Bandwidth x) * Reliability x - inject_Z (Load x))%Q.

Definition predictive_body (_ : nat) (task : Task) (s : list Node * Random)
    : result (assignment * (list Node * Random)) :=
  let '(nodes, g) := s in
  let '(nodes1, g1) := fluctuate_all nodes g in
  let scored := sorted_reverse Qltb (score ∘ snd) (enumerate nodes1) in
  '(r, _) ← getitem scored 0;
  node ← getitem nodes1 r;
  let nodes2 := alter (add_load (Workload task)) r nodes1 in
  Ok ((task_id task, id node), (nodes2, g1)).

Definition predictive_qos (nodes : list Node) (tasks : list Task)
    (g : Random) : result (list assignment * (list Node * Random)) :=
  for_enumerate predictive_body 0 tasks (nodes, g).

(** ** QoS and SLA evaluation *)

Definition evaluate_one (a : assignment) (tasks : list Task)
    (nodes : list Node) (g : Random) : result (EvalRecord * Random) :=
  let '(t_id, node_id) := a in
  node ← next_by_id id nodes node_id;
  task ← next_by_id task_id tasks t_id;
  let '(u, g1) := uniform (1 # 10) (15 # 10) g in
  q ← py_div 10 (inject_Z (Bandwidth node));
  let latency := py_round (u * q) 3 in
  d ← py_div (inject_Z (Bandwidth node)) (inject_Z (Workload task + 1));
  let throughput := py_round d 2 in
  exec_time ← py_div (inject_Z (Workload task)) (inject_Z (CPU node));
  let reliability := Reliability node in
  x ← py_div (throughput * reliability) (1 + latency);
  let qos_score := py_round x 3 in
  let sla_met := Qle_bool exec_time (inject_Z (SLA_Time task)) in
  Ok (mkEvalRecord t_id node_id latency throughput reliability qos_score
        (py_round exec_time 2) (SLA_Time task)
        (if sla_met then CheckMark else CrossMark),
      g1).

Fixpoint evaluate (assignments : list assignment) (tasks : list Task)
    (nodes : list Node) (g : Random) : result (list EvalRecord * Random) :=
  match assignments with
  | [] => Ok ([], g)
  | a :: rest =>
      '(r, g1) ← evaluate_one a tasks nodes g;
      '(results, g2) ← evaluate rest tasks nodes g1;
      Ok (r :: results, g2)
  end.

(** ** Aggregation of the result table (the two metrics after [evaluate])

    Returns [(sla_success / len(results), avg_qos)]; the page shows the
    first component multiplied by 100. *)
Definition aggregate (results : list EvalRecord) : result (Q * Q) :=
  let sla_success :=
    length (filter (λ r, SLA_Met r = CheckMark) results) in
  let total := foldl Qplus 0%Q (QoS_Score <$> results) in
  let n := inject_Z (Z.of_nat (length results)) in
  avg_qos ← py_div total n;
  rate ← py_div (inject_Z (Z.of_nat sla_success)) n;
  Ok (rate, avg_qos).

(** The dispatch on the selected algorithm name; the three cyclic schedulers
    leave the random source untouched. *)
Inductive algorithm : Set :=
| RoundRobin
| ShortestJobFirst
| Economic
| PredictiveQoSAware.

Definition schedule (alg : algorithm) (nodes : list Node) (tasks : list Task)
    (g : Random) : result (list assignment * (list Node * Random)) :=
  match alg with
  | RoundRobin =>
      '(assign, nodes') ← round_robin nodes tasks; Ok (assign, (nodes', g))
  | ShortestJobFirst =>
      '(assign, nodes') ← shortest_job_first nodes tasks;
      Ok (assign, (nodes', g))
  | Economic =>
      '(assign, nodes') ← economic nodes tasks; Ok (assign, (nodes', g))
  | PredictiveQoSAware => predictive_qos nodes tasks g
  end.

(** ** Specification vocabulary *)

(** The node-state invariant of the data model. *)
Definition node_inv (n : Node) : Prop :=
  0 ≤ Load n ∧ (7 # 10 <= Reliability n)%Q ∧ (Reliability n <= 99 # 100)%Q
  ∧ 1 ≤ CPU n ∧ 10 ≤ Bandwidth n.

(** The invariant of a run started on [nodes0]: every node satisfies
    [node_inv] and no load is below its load at the start. *)
Definition run_inv (nodes0 nodes : list Node) : Prop :=
  Forall node_inv nodes ∧ Forall2 (λ n n', Load n ≤ Load n') nodes0 nodes.

(** Total workload that a cyclic walk over [order], started at loop index
    [i], puts on the node at position [r]. *)
Fixpoint assigned_work (order : list nat) (k i : nat) (tasks : list Task)
    (r : nat) : Z :=
  match tasks with
  | [] => 0
  | t :: rest =>
      (if decide (order !! (i mod k)%nat = Some r) then Workload t else 0)
      + assigned_work order k (S i) rest r
  end.

(** What the specification says of one round of resource fluctuation:
    [cpu] moves by a delta in {-1, 0, +1} and is clamped to at least 1,
    [bandwidth] by a delta in {-10, 0, +10}, clamped to at least 10,
    [reliability] by a delta in {-0.01, 0, +0.01}, clamped to [0.70, 0.99];
    nothing else changes. *)
Definition fluctuated (n n' : Node) : Prop :=
  id n' = id n ∧ Memory n' = Memory n ∧ Cost n' = Cost n ∧ Load n' = Load n
  ∧ (∃ d, d ∈ [-1; 0; 1] ∧ CPU n' = Z.max 1 (CPU n + d))
  ∧ (∃ d, d ∈ [-10; 0; 10] ∧ Bandwidth n' = Z.max 10 (Bandwidth n + d))
  ∧ (∃ d, d ∈ [(- (1 # 100))%Q; 0%Q; 1 # 100]
       ∧ (Reliability n'
          == Qmax (7 # 10) (Qmin (99 # 100) (Reliability n + d)))%Q).

(** Position [r] holds a node of maximal score, and every node before it
    has a strictly smaller score. *)
Definition first_max (nodes : list Node) (r : nat) : Prop :=
  ∃ node, nodes !! r = Some node
    ∧ (∀ j x, nodes !! j = Some x → (score x <= score node)%Q)
    ∧ (∀ j x, nodes !! j = Some x → (j < r)%nat → (score x < score node)%Q).

(** What the specification says of a run of the predictive strategy: for
    each task in input order, fluctuate every node once, pick the first
    node of maximal score, add the workload to its load. *)
Inductive predictive_run
  : list Node → list Task → list assignment → list Node → Prop :=
| predictive_run_nil nodes :
    predictive_run nodes [] [] nodes
| predictive_run_cons nodes task rest nodes1 r node out nodes' :
    Forall2 fluctuated nodes nodes1 →
    first_max nodes1 r →
    nodes1 !! r = Some node →
    predictive_run (alter (add_load (Workload task)) r nodes1) rest out nodes' →
    predictive_run nodes (task :: rest) ((task_id task, id node) :: out) nodes'.

(** The row [evaluate] builds for one assignment, given the two values that
    depend on the latency draw. *)
Definition row_of (t_id node_id : string) (task : Task) (node : Node)
    (latency qos : Q) : EvalRecord :=
  let exec_time := (inject_Z (Workload task) / inject_Z (CPU node))%Q in
  mkEvalRecord t_id node_id latency
    (py_round (inject_Z (Bandwidth node) / inject_Z (Workload task + 1)) 2)
    (Reliability node) qos (py_round exec_time 2) (SLA_Time task)
    (if Qle_bool exec_time (inject_Z (SLA_Time task))
     then CheckMark else CrossMark).

(** The run of a strategy stopped after its first [k] loop iterations: the
    assignments made and the node list reached at that point. *)
Definition schedule_prefix (alg : algorithm) (k : nat) (nodes : list Node)
    (tasks : list Task) (g : Random)
    : result (list assignment * (list Node * Random)) :=
  match alg with
  | RoundRobin =>
      '(assign, nodes') ← for_enumerate round_robin_body 0 (take k tasks) nodes;
      Ok (assign, (nodes', g))
  | ShortestJobFirst =>
      let tasks_sorted := sorted Z.ltb Workload tasks in
      let nodes_sorted := (sorted Z.ltb (Load ∘ snd) (enumerate nodes)).*1 in
      '(assign, nodes') ←
        for_enumerate (sorted_body nodes_sorted) 0 (take k tasks_sorted) nodes;
      Ok (assign, (nodes', g))
  | Economic =>
      let nodes_sorted := (sorted Qltb (Cost ∘ snd) (enumerate nodes)).*1 in
      '(assign, nodes') ←
        for_enumerate (sorted_body nodes_sorted) 0 (take k tasks) nodes;
      Ok (assign, (nodes', g))
  | PredictiveQoSAware =>
      for_enumerate predictive_body 0 (take k tasks) (nodes, g)
  end.

(** Sum of a list of rationals. *)
Definition Qsum (l : list Q) : Q := foldr Qplus 0%Q l.

(** ** Economic cost overview (the sum after the two metrics)

    [sum(next(n for n in nodes if n["id"] == r["Node"])["Cost"] for r in
    results)].  The lookup runs inside a generator expression, where Python
    turns the StopIteration of a failed [next] into a RuntimeError; [None]
    stands for that error. *)
Definition total_cost (results : list EvalRecord) (nodes : list Node)
    : option Q :=
  foldl (λ acc r,
           total ← acc;
           match next_by_id id nodes (rec_Node r) with
           | Ok node => Some (total + Cost node)%Q
           | Raise _ => None
           end)
        (Some 0%Q) results.

(** ** The simulation run of the page (the branch taken when the button is
    pressed), without its display calls

    It generates the grid and the tasks, schedules, evaluates, and computes
    the three metrics; the record holds what the page shows. *)

Inductive page_exception : Set :=
| Engine (e : exception)
| RuntimeError.

Record Page : Type := mkPage {
  page_nodes : list Node;          (* the grid as generated *)
  page_tasks : list Task;
  page_results : list EvalRecord;
  page_sla_success_rate : Q;       (* [(sla_success / len(results)) * 100] *)
  page_avg_qos : Q;
  page_total_cost : Q;
  page_final_nodes : list Node     (* the grid as the scheduler left it *)
}.

Definition simulation (num_nodes num_tasks : nat) (alg : algorithm)
    (g : Random) : page_exception + Page :=
  let '(nodes, g1) := create_nodes num_nodes g in
  let '(tasks, g2) := create_tasks num_tasks g1 in
  match schedule alg nodes tasks g2 with
  | Raise e => inl (Engine e)
  | Ok (assign, (nodes', g3)) =>
      match evaluate assign tasks nodes' g3 with
      | Raise e => inl (Engine e)
      | Ok (results, _) =>
          match aggregate results with
          | Raise e => inl (Engine e)
          | Ok (rate, avg_qos) =>
              match total_cost results nodes' with
              | None => inl RuntimeError
              | Some cost =>
                  inr (mkPage nodes tasks results (rate * 100)%Q avg_qos cost
                         nodes')
              end
          end
      end
  end.

(** ** Further specification vocabulary *)

(** Sum of the loads of a node list and of the workloads of a task list. *)
Definition total_load (nodes : list Node) : Z :=
  foldr Z.add 0 (Load <$> nodes).

Definition total_work (tasks : list Task) : Z :=
  foldr Z.add 0 (Workload <$> tasks).

(** An assignment that [evaluate] can turn into a row on nodes of positive
    bandwidth: both ids resolve, and neither [workload + 1] nor [cpu] is 0. *)
Definition assignment_ok (tasks : list Task) (nodes : list Node)
    (a : assignment) : Prop :=
  ∃ node task,
    next_by_id id nodes a.2 = Ok node
    ∧ next_by_id task_id tasks a.1 = Ok task
    ∧ CPU node ≠ 0 ∧ Workload task ≠ -1.


(** The cost the page charges for a node id: the cost of the node that the
    lookup returns (0 stands in when there is none). *)
Definition cost_of (nodes : list Node) (node_id : string) : Q :=
  match next_by_id id nodes node_id with
  | Ok node => Cost node
  | Raise _ => 0%Q
  end.

(** ** Binary64 arithmetic

    The float operations behind the execution time, the SLA comparison and
    the two-decimal rounding, on IEEE 754 binary64 values, used to check that
    the rational reading above agrees with the floats at the documented
    figures.  Ints are below [2^53] here, so their conversion is exact. *)

Module Binary64.
Import Floats.

Definition of_int (z : Z) : float := PrimFloat.of_uint63 (Uint63.of_Z z).

(** [a / b] on two ints: the float nearest to the quotient. *)
Definition truediv (a b : Z) : float := PrimFloat.div (of_int a) (of_int b).

(** The rational a finite float stands for. *)
Definition exact (x : float) : option Q :=
  match Prim2SF x with
  | S754_zero _ => Some 0%Q
  | S754_finite s m e =>
      let n := if s then Z.neg m else Z.pos m in
      Some (if 0 <=? e then inject_Z (n * 2 ^ e)
            else Qmake n (Z.to_pos (2 ^ (- e))))
  | S754_infinity _ | S754_nan => None
  end.

(** [round(x, ndigits)] on a non-negative finite float: the decimal with
    [ndigits] digits nearest to the exact value, ties to even, converted
    back to the nearest float. *)
Definition round (x : float) (ndigits : nat) : option float :=
  match exact x with
  | Some q =>
      let scale := Z.of_nat (10 ^ ndigits) in
      Some (truediv (round_half_even (q * inject_Z scale)) scale)
  | None => None
  end.

(** [x <= n] for a float and an int. *)
Definition le_int (x : float) (n : Z) : bool := PrimFloat.leb x (of_int n).
End Binary64.

(** ** Sample data *)

Definition sample_random : Random :=
  mkRandom (λ i, Z.of_nat i * 7919 + 13) 0.

Definition sample_nodes : list Node :=
  [ mkNode "Node-1" 5 16 100 (9 # 10) 3 0;
    mkNode "Node-2" 3 8 60 (85 # 100) (1 # 2) 0;
    mkNode "Node-3" 8 32 150 (99 # 100) (3 # 2) 0 ].

Definition sample_tasks : list Task :=
  [ mkTask "Task-1" 5 "Low" 2;
    mkTask "Task-2" 10 "High" 3;
    mkTask "Task-3" 3 "Medium" 9;
    mkTask "Task-4" 7 "Low" 4 ].


(** Two nodes that enter the scheduler with different loads. *)
Definition loaded_nodes : list Node :=
  [ mkNode "Node-1" 5 16 100 (9 # 10) 3 0;
    mkNode "Node-2" 3 8 60 (85 # 100) (1 # 2) 50 ].


(** * Properties *)

(** ** The error monad *)

Lemma bind_Ok {A B} (m : result A) (f : A → result B) (b : B) :
  m ≫= f = Ok b → ∃ a, m = Ok a ∧ f a = Ok b.
Proof. destruct m as [a|e]; simpl; [eauto | discriminate]. Qed.

Lemma Ok_bind {A B} (a : A) (f : A → result B) : Ok a ≫= f = f a.
Proof. reflexivity. Qed.

Ltac inv_bind H :=
  let a := fresh "a" in
  let Ha := fresh "Ha" in
  apply bind_Ok in H as (a & Ha & H).

Lemma py_mod_Ok (a b : nat) : b ≠ O → py_mod a b = Ok (a mod b)%nat.
Proof. destruct b; [congruence | reflexivity]. Qed.

Lemma getitem_Ok {A} (l : list A) (i : nat) (x : A) :
  getitem l i = Ok x ↔ l !! i = Some x.
Proof.
  unfold getitem. destruct (l !! i); split; intros H; congruence.
Qed.

(** ** Stable sorting *)

Lemma forallb_Forall_true {A} (f : A → bool) (l : list A) :
  forallb f l = true ↔ Forall (λ y, f y = true) l.
Proof.
  induction l as [|x l IH]; simpl.
  - split; [constructor | done].
  - rewrite andb_true_iff, IH, Forall_cons. done.
Qed.

Lemma forallb_false_Exists {A} (f : A → bool) (l : list A) :
  forallb f l = false → Exists (λ y, f y = false) l.
Proof.
  induction l as [|x l IH]; simpl; [discriminate|].
  destruct (f x) eqn:Hx; simpl; intros H.
  - right. by apply IH.
  - by left.
Qed.

Section SortedFacts.
Context {A K : Type} (lt : K → K → bool) (key : A → K).

Lemma insert_by_perm (x : A) (l : list A) : insert_by lt key x l ≡ₚ x :: l.
Proof.
  induction l as [|y l IH]; simpl; [reflexivity|].
  destruct (lt (key y) (key x)); [|reflexivity].
  rewrite IH. apply Permutation_swap.
Qed.

Lemma sorted_perm (l : list A) : sorted lt key l ≡ₚ l.
Proof.
  induction l as [|x l IH]; simpl; [reflexivity|].
  rewrite insert_by_perm. by constructor.
Qed.

Lemma sorted_length (l : list A) : length (sorted lt key l) = length l.
Proof. apply Permutation_length, sorted_perm. Qed.



(** Where the last element of a sorted list comes from. *)
Lemma last_insert_by (x : A) (l : list A) :
  last (insert_by lt key x l)
  = if forallb (λ y, lt (key y) (key x)) l then Some x else last l.
Proof.
  induction l as [|y l IH]; simpl; [reflexivity|].
  destruct (lt (key y) (key x)) eqn:Hlt; simpl.
  - rewrite last_cons, IH.
    destruct (forallb _ l) eqn:Hall; [reflexivity|].
    rewrite last_cons. destruct (last l) eqn:Hl; [reflexivity|].
    apply last_None in Hl. subst l. discriminate.
  - reflexivity.
Qed.

Hypothesis lt_asym : ∀ a b, lt a b = true → lt b a = false.
Hypothesis le_trans :
  ∀ a b c, lt b a = false → lt c b = false → lt c a = false.

Lemma insert_by_sorted (x : A) (l : list A) :
  StronglySorted (key_le lt key) l → StronglySorted (key_le lt key) (insert_by lt key x l).
Proof.
  induction 1 as [|y l Hs IH Hy]; simpl.
  - repeat constructor.
  - destruct (lt (key y) (key x)) eqn:Hlt.
    + constructor; [exact IH|].
      rewrite insert_by_perm.
      constructor; [|exact Hy]. by apply lt_asym.
    + constructor; [by constructor|].
      constructor; [exact Hlt|].
      eapply Forall_impl; [exact Hy|].
      intros z Hz. unfold key_le in *. by eapply le_trans.
Qed.

Lemma sorted_sorted (l : list A) : StronglySorted (key_le lt key) (sorted lt key l).
Proof.
  induction l as [|x l IH]; simpl; [constructor|].
  by apply insert_by_sorted.
Qed.

(** The last element of [sorted l] is the last of the elements of [l]
    with a maximal key. *)
Lemma last_sorted (l : list A) (z : A) :
  last (sorted lt key l) = Some z →
  ∃ l1 l2, l = l1 ++ z :: l2
    ∧ Forall (λ y, lt (key z) (key y) = false) l1
    ∧ Forall (λ y, lt (key y) (key z) = true) l2.
Proof.
  revert z. induction l as [|x l IH]; intros z; simpl; [discriminate|].
  rewrite last_insert_by.
  destruct (forallb _ (sorted lt key l)) eqn:Hall.
  - intros [= <-]. exists [], l. split_and!; [done|constructor|].
    rewrite <-(sorted_perm l). by apply forallb_Forall_true.
  - intros Hz. destruct (IH z Hz) as (l1 & l2 & -> & H1 & H2).
    exists (x :: l1), l2. split_and!; [done| |done].
    constructor; [|done].
    assert (Hmax : Forall (λ y, lt (key z) (key y) = false)
                     (l1 ++ z :: l2)).
    { apply Forall_app; split; [done|]. constructor.
      - destruct (lt (key z) (key z)) eqn:E; [|done].
        by rewrite (lt_asym _ _ E) in E.
      - eapply Forall_impl; [exact H2|]. intros y Hy. by apply lt_asym. }
    assert (Hex : Exists (λ y, lt (key y) (key x) = false)
                    (l1 ++ z :: l2)).
    { rewrite <-(sorted_perm (l1 ++ z :: l2)).
      by apply forallb_false_Exists in Hall. }
    apply Exists_exists in Hex as (y & Hy & Hyx).
    rewrite Forall_forall in Hmax. specialize (Hmax y Hy).
    by eapply le_trans.
Qed.

(** The first element of [sorted(l, reverse=True)] is the first of the
    elements of [l] with a maximal key. *)
Lemma head_sorted_reverse (l : list A) (z : A) :
  head (sorted_reverse lt key l) = Some z →
  ∃ l1 l2, l = l1 ++ z :: l2
    ∧ Forall (λ y, lt (key y) (key z) = true) l1
    ∧ Forall (λ y, lt (key z) (key y) = false) l2.
Proof.
  unfold sorted_reverse. rewrite head_reverse. intros Hz.
  destruct (last_sorted _ _ Hz) as (l1 & l2 & Hl & H1 & H2).
  exists (reverse l2), (reverse l1). split_and!.
  - rewrite <-(reverse_involutive l), Hl, reverse_app, reverse_cons.
    by rewrite <-app_assoc.
  - by apply Forall_reverse.
  - by apply Forall_reverse.
Qed.

Lemma sorted_reverse_perm (l : list A) : sorted_reverse lt key l ≡ₚ l.
Proof.
  unfold sorted_reverse.
  by rewrite reverse_Permutation, sorted_perm, reverse_Permutation.
Qed.
End SortedFacts.

(** The two key orders used by the schedulers. *)

Lemma Zltb_asym (a b : Z) : (a <? b) = true → (b <? a) = false.
Proof. lia. Qed.

Lemma Zltb_le_trans (a b c : Z) :
  (b <? a) = false → (c <? b) = false → (c <? a) = false.
Proof. lia. Qed.

Lemma Qltb_true (x y : Q) : Qltb x y = true ↔ (x < y)%Q.
Proof.
  unfold Qltb. rewrite negb_true_iff, <-not_true_iff_false, Qle_bool_iff.
  split; [apply Qnot_le_lt | apply Qlt_not_le].
Qed.

Lemma Qltb_false (x y : Q) : Qltb x y = false ↔ (y <= x)%Q.
Proof. unfold Qltb. by rewrite negb_false_iff, Qle_bool_iff. Qed.

Lemma Qltb_asym (a b : Q) : Qltb a b = true → Qltb b a = false.
Proof. rewrite Qltb_true, Qltb_false. apply Qlt_le_weak. Qed.

Lemma Qltb_le_trans (a b c : Q) :
  Qltb b a = false → Qltb c b = false → Qltb c a = false.
Proof. rewrite !Qltb_false. apply Qle_trans. Qed.

#[global] Instance Qltb_proper : Proper (Qeq ==> Qeq ==> eq) Qltb.
Proof.
  intros x x' Hx y y' Hy. unfold Qltb. f_equal.
  destruct (Qle_bool y x) eqn:E1, (Qle_bool y' x') eqn:E2; try done.
  - apply Qle_bool_iff in E1. rewrite Hx, Hy in E1.
    apply Qle_bool_iff in E1. congruence.
  - apply Qle_bool_iff in E2. rewrite <-Hx, <-Hy in E2.
    apply Qle_bool_iff in E2. congruence.
Qed.

(** ** Positions and in-place updates *)

Lemma enumerate_lookup {A} (l : list A) (i : nat) :
  enumerate l !! i = (λ x, (i, x)) <$> l !! i.
Proof. apply list_lookup_imap. Qed.

Lemma enumerate_elem_of {A} (l : list A) (r : nat) (x : A) :
  (r, x) ∈ enumerate l ↔ l !! r = Some x.
Proof.
  rewrite list_elem_of_lookup. split.
  - intros [i Hi]. rewrite enumerate_lookup in Hi.
    destruct (l !! i) eqn:E; simplify_eq/=. done.
  - intros H. exists r. by rewrite enumerate_lookup, H.
Qed.

Lemma enumerate_fst {A} (l : list A) : (enumerate l).*1 = seq 0 (length l).
Proof.
  apply list_eq. intros i. rewrite list_lookup_fmap, enumerate_lookup.
  destruct (l !! i) eqn:E; simpl.
  - rewrite lookup_seq_lt; [done|]. by eapply lookup_lt_Some.
  - symmetry. apply lookup_seq_ge. by apply lookup_ge_None.
Qed.

(** Every sorted copy holds each position of the list exactly once. *)
Lemma sorted_copy_perm {K} (lt : K → K → bool) (key : Node → K)
    (nodes : list Node) :
  (sorted lt (key ∘ snd) (enumerate nodes)).*1 ≡ₚ seq 0 (length nodes).
Proof. by rewrite sorted_perm, enumerate_fst. Qed.

Lemma add_load_0 (n : Node) : add_load 0 n = n.
Proof. destruct n. unfold add_load. simpl. f_equal. lia. Qed.

Lemma add_load_add (a b : Z) (n : Node) :
  add_load b (add_load a n) = add_load (a + b) n.
Proof. unfold add_load. simpl. f_equal. lia. Qed.


(** ** Loops *)


(** A predicate on loop states that every successful iteration preserves
    holds when the loop ends. *)
Lemma for_enumerate_invariant {St}
    (body : nat → Task → St → result (assignment * St)) (P : St → Prop)
    (Q : Task → Prop) :
  (∀ i t s a s', Q t → P s → body i t s = Ok (a, s') → P s') →
  ∀ i tasks s out s', Forall Q tasks → P s →
    for_enumerate body i tasks s = Ok (out, s') → P s'.
Proof.
  intros Hstep i tasks. revert i.
  induction tasks as [|t tasks IH]; intros i s out s' HQ HP H; simpl in H.
  - by simplify_eq.
  - inv_bind H. destruct a as [a s1]. inv_bind H. destruct a0 as [out' s2].
    simplify_eq. apply Forall_cons in HQ as [Ht HQ].
    eapply IH; [done| |done]. eauto.
Qed.

(** The state after the first [k] iterations is the final state of the loop
    over the first [k] tasks, and the loop over them succeeds. *)
Lemma for_enumerate_take {St}
    (body : nat → Task → St → result (assignment * St))
    (i : nat) (tasks : list Task) (s s' : St) (out : list assignment) (k : nat) :
  for_enumerate body i tasks s = Ok (out, s') →
  ∃ sk, for_enumerate body i (take k tasks) s = Ok (take k out, sk)
        ∧ for_enumerate body (i + k) (drop k tasks) sk = Ok (drop k out, s').
Proof.
  revert i tasks s out. induction k as [|k IH]; intros i tasks s out H.
  - exists s. rewrite !take_0, !drop_0, Nat.add_0_r. done.
  - destruct tasks as [|t tasks]; simpl in H.
    + simplify_eq. exists s'. done.
    + inv_bind H. destruct a as [a s1]. inv_bind H. destruct a0 as [out' s2].
      simplify_eq. destruct (IH _ _ _ _ Ha0) as (sk & H1 & H2).
      exists sk. simpl. rewrite Ha. simpl. rewrite H1. simpl.
      split; [done|]. by rewrite <-Nat.add_succ_comm.
Qed.

(** ** The cyclic walk over a fixed node order *)

Section Cyclic.
Variable order : list nat.
Variable n : nat.
Hypothesis n_pos : n ≠ O.
Hypothesis order_length : length order = n.
Hypothesis order_valid : Forall (λ r, r < n)%nat order.

Lemma sorted_body_Ok (i : nat) (t : Task) (nodes : list Node) :
  length nodes = n →
  ∃ r node, order !! (i mod n)%nat = Some r ∧ nodes !! r = Some node
    ∧ sorted_body order i t nodes
      = Ok ((task_id t, id node), alter (add_load (Workload t)) r nodes).
Proof.
  intros Hlen.
  assert (Hk : (i mod n < length order)%nat).
  { rewrite order_length. by apply Nat.mod_upper_bound. }
  apply lookup_lt_is_Some in Hk as [r Hr].
  assert (Hrn : (r < length nodes)%nat).
  { rewrite Hlen. eapply (proj1 (Forall_lookup _ _) order_valid); eauto. }
  apply lookup_lt_is_Some in Hrn as [node Hnode].
  exists r, node. split_and!; [done..|].
  unfold sorted_body. rewrite Hlen, py_mod_Ok by done. simpl.
  rewrite (proj2 (getitem_Ok _ _ _) Hr). simpl.
  by rewrite (proj2 (getitem_Ok _ _ _) Hnode).
Qed.

Lemma sorted_loop_spec (tasks : list Task) (i : nat) (nodes : list Node) :
  length nodes = n →
  ∃ out nodes',
    for_enumerate (sorted_body order) i tasks nodes = Ok (out, nodes')
    ∧ length nodes' = n
    ∧ length out = length tasks
    ∧ (∀ j t, tasks !! j = Some t →
         ∃ r node, order !! ((i + j) mod n)%nat = Some r
           ∧ nodes !! r = Some node
           ∧ out !! j = Some (task_id t, id node))
    ∧ (∀ r, nodes' !! r
            = add_load (assigned_work order n i tasks r) <$> nodes !! r).
Proof.
  revert i nodes. induction tasks as [|t tasks IH]; intros i nodes Hlen.
  - exists [], nodes. split_and!; try done.
    intros r. simpl. destruct (nodes !! r); simpl; [|done].
    by rewrite add_load_0.
  - destruct (sorted_body_Ok i t nodes Hlen) as (r0 & node0 & Hr0 & Hn0 & Hb).
    destruct (IH (S i) (alter (add_load (Workload t)) r0 nodes))
      as (out & nodes' & Hloop & Hlen' & Hout & Hidx & Hload).
    { by rewrite length_alter. }
    exists ((task_id t, id node0) :: out), nodes'. split_and!.
    + simpl. rewrite Hb. simpl. by rewrite Hloop.
    + done.
    + simpl. by rewrite Hout.
    + intros [|j] t' Ht'; simpl in Ht'.
      * simplify_eq. exists r0, node0. by rewrite Nat.add_0_r.
      * destruct (Hidx j t' Ht') as (r & node & Hr & Hnode & Hj).
        rewrite list_lookup_alter in Hnode.
        rewrite <-Nat.add_succ_comm. exists r.
        destruct (decide (r0 = r)) as [->|Hne].
        -- rewrite Hn0 in Hnode. simpl in Hnode. simplify_eq.
           exists node0. done.
        -- exists node. done.
    + intros r. rewrite Hload, list_lookup_alter. simpl.
      rewrite Hr0. destruct (decide (r0 = r)) as [->|Hne].
      * rewrite decide_True by done. rewrite <-option_fmap_compose.
        apply option_fmap_ext. intros x. simpl. apply add_load_add.
      * rewrite decide_False by congruence. done.
Qed.
End Cyclic.

(** Round robin walks the node list itself. *)
Lemma round_robin_body_sorted_body (i : nat) (t : Task) (nodes : list Node) :
  round_robin_body i t nodes = sorted_body (seq 0 (length nodes)) i t nodes.
Proof.
  unfold round_robin_body, sorted_body.
  destruct (decide (length nodes = O)) as [Hlen|Hlen].
  { by rewrite Hlen. }
  rewrite py_mod_Ok by done.
  assert (Hk : (i mod length nodes < length nodes)%nat)
    by (by apply Nat.mod_upper_bound).
  rewrite !Ok_bind.
  by rewrite (proj2 (getitem_Ok (seq 0 _) _ _) (lookup_seq_lt 0 _ _ Hk)).
Qed.

Lemma round_robin_loop_sorted_body (tasks : list Task) (i : nat)
    (nodes : list Node) :
  for_enumerate round_robin_body i tasks nodes
  = for_enumerate (sorted_body (seq 0 (length nodes))) i tasks nodes.
Proof.
  remember (length nodes) as n eqn:Hn.
  revert i nodes Hn. induction tasks as [|t tasks IH]; intros i nodes Hn.
  - done.
  - simpl. rewrite round_robin_body_sorted_body, <-Hn.
    destruct (sorted_body (seq 0 n) i t nodes) as [[a nodes1]|e] eqn:Hb;
      [|done].
    simpl. rewrite (IH (S i) nodes1); [done|].
    unfold sorted_body in Hb. repeat inv_bind Hb. simplify_eq.
    by rewrite length_alter.
Qed.

Lemma seq_valid (n : nat) : Forall (λ r, r < n)%nat (seq 0 n).
Proof. apply Forall_seq. lia. Qed.

Lemma sorted_copy_length {K} (lt : K → K → bool) (key : Node → K)
    (nodes : list Node) :
  length (sorted lt (key ∘ snd) (enumerate nodes)).*1 = length nodes.
Proof. by rewrite sorted_copy_perm, length_seq. Qed.

Lemma sorted_copy_valid {K} (lt : K → K → bool) (key : Node → K)
    (nodes : list Node) :
  Forall (λ r, r < length nodes)%nat
         (sorted lt (key ∘ snd) (enumerate nodes)).*1.
Proof. rewrite sorted_copy_perm. apply seq_valid. Qed.



(** ** Round robin *)



Lemma StronglySorted_impl {A} (R1 R2 : A → A → Prop) (l : list A) :
  (∀ x y, R1 x y → R2 x y) → StronglySorted R1 l → StronglySorted R2 l.
Proof.
  intros HR. induction 1 as [|x l Hs IH Hx]; constructor; [done|].
  eapply Forall_impl; [exact Hx|]. auto.
Qed.

(** The entry of a sorted copy at a position of the walk names an object of
    the node list. *)
Lemma sorted_copy_lookup {K} (lt : K → K → bool) (key : Node → K)
    (nodes : list Node) (k r : nat) :
  (sorted lt (key ∘ snd) (enumerate nodes)).*1 !! k = Some r →
  ∃ node, sorted lt (key ∘ snd) (enumerate nodes) !! k = Some (r, node)
          ∧ nodes !! r = Some node.
Proof.
  rewrite list_lookup_fmap. intros H.
  destruct (sorted lt (key ∘ snd) (enumerate nodes) !! k) as [[r' node]|] eqn:E;
    simplify_eq/=.
  exists node. split; [done|].
  apply enumerate_elem_of. rewrite <-(sorted_perm lt (key ∘ snd)).
  by eapply list_elem_of_lookup_2.
Qed.

(** ** Shortest job first *)


(** On three nodes of load 0 the node order is the input order; the four
    sample tasks are taken by ascending workload (3, 5, 7, 10). *)
Example shortest_job_first_sample :
  shortest_job_first sample_nodes sample_tasks
  = Ok ([("Task-3", "Node-1"); ("Task-1", "Node-2"); ("Task-4", "Node-3");
         ("Task-2", "Node-1")],
        [ mkNode "Node-1" 5 16 100 (9 # 10) 3 13;
          mkNode "Node-2" 3 8 60 (85 # 100) (1 # 2) 5;
          mkNode "Node-3" 8 32 150 (99 # 100) (3 # 2) 7 ]).
Proof. reflexivity. Qed.

(** The node order is not revised during the run: the second task goes to
    the second node of the order, of load 50, although the first node has
    load 3 by then. *)
Example shortest_job_first_keeps_order :
  shortest_job_first loaded_nodes sample_tasks
  = Ok ([("Task-3", "Node-1"); ("Task-1", "Node-2"); ("Task-4", "Node-1");
         ("Task-2", "Node-2")],
        [ mkNode "Node-1" 5 16 100 (9 # 10) 3 10;
          mkNode "Node-2" 3 8 60 (85 # 100) (1 # 2) 65 ]).
Proof. reflexivity. Qed.

(** ** Economic *)


(** ** The random source *)

Lemma randbelow_range (n : Z) (g : Random) :
  0 < n → 0 ≤ (randbelow n g).1 < n.
Proof. intros Hn. unfold randbelow. simpl. by apply Z.mod_pos_bound. Qed.


Lemma randint_range (a b : Z) (g : Random) :
  a ≤ b → a ≤ (randint a b g).1 ≤ b.
Proof.
  intros Hab. unfold randint.
  pose proof (randbelow_range (b - a + 1) g ltac:(lia)) as H.
  destruct (randbelow (b - a + 1) g) as [k g']. simpl in *. lia.
Qed.

Lemma choice_elem_of {A} (x : A) (xs : list A) (g : Random) :
  (choice x xs g).1 ∈ x :: xs.
Proof.
  unfold choice.
  pose proof (randbelow_range (Z.of_nat (length (x :: xs))) g) as H.
  destruct (randbelow _ g) as [k g']. simpl in H |- *.
  apply list_elem_of_In, (nth_In (x :: xs)). simpl. lia.
Qed.

Lemma choice_cursor {A} (x : A) (xs : list A) (g : Random) :
  cursor (choice x xs g).2 = S (cursor g).
Proof. reflexivity. Qed.

Lemma random_range (g : Random) : (0 <= (random g).1 < 1)%Q.
Proof.
  unfold random. simpl.
  pose proof (Z.mod_pos_bound (draws g (cursor g)) (2 ^ 53) ltac:(lia)) as H.
  unfold Qle, Qlt. simpl. lia.
Qed.

Lemma uniform_range (a b : Q) (g : Random) :
  (a <= b)%Q → (a <= (uniform a b g).1 <= b)%Q.
Proof.
  intros Hab. unfold uniform.
  pose proof (random_range g) as [H0 H1].
  destruct (random g) as [u g']. simpl in *. split; nra.
Qed.

(** ** Rounding and clamping *)

Lemma round_half_even_floor (q : Q) :
  Qfloor q ≤ round_half_even q ≤ Qfloor q + 1.
Proof.
  unfold round_half_even.
  destruct (Qltb _ _); [lia|]. destruct (Qltb _ _); [lia|].
  destruct (Z.even _); lia.
Qed.

Lemma round_half_even_lb (z : Z) (q : Q) :
  (inject_Z z <= q)%Q → z ≤ round_half_even q.
Proof.
  intros H. apply Qfloor_resp_le in H. rewrite Qfloor_Z in H.
  pose proof (round_half_even_floor q). lia.
Qed.

Lemma round_half_even_ub (z : Z) (q : Q) :
  (q <= inject_Z z)%Q → round_half_even q ≤ z.
Proof.
  intros H. pose proof (Qfloor_resp_le _ _ H) as Hf. rewrite Qfloor_Z in Hf.
  destruct (decide (Qfloor q = z)) as [Heq|Hne].
  - unfold round_half_even.
    assert (Hr : (q - inject_Z (Qfloor q) < 1 # 2)%Q).
    { pose proof (Qfloor_le q). rewrite Heq in *. lra. }
    apply Qltb_true in Hr. rewrite Hr. lia.
  - pose proof (round_half_even_floor q). lia.
Qed.

(** Rounding to two decimals keeps a value between two bounds that are
    themselves multiples of 0.01. *)
Lemma py_round_2_range (a b : Z) (x : Q) :
  (a # 100 <= x)%Q → (x <= b # 100)%Q →
  (a # 100 <= py_round x 2)%Q ∧ (py_round x 2 <= b # 100)%Q.
Proof.
  intros Ha Hb. unfold py_round.
  change (Pos.of_nat (10 ^ 2)) with 100%positive.
  assert (H1 : a ≤ round_half_even (x * inject_Z 100)).
  { apply round_half_even_lb. unfold Qle in *. simpl in *. lia. }
  assert (H2 : round_half_even (x * inject_Z 100) ≤ b).
  { apply round_half_even_ub. unfold Qle in *. simpl in *. lia. }
  unfold Qle. simpl. lia.
Qed.

Lemma py_max_Qmax (a b : Q) : (py_max a b == Qmax a b)%Q.
Proof.
  unfold py_max. destruct (Qltb a b) eqn:E.
  - apply Qltb_true in E. symmetry. apply Q.max_r. by apply Qlt_le_weak.
  - apply Qltb_false in E. symmetry. by apply Q.max_l.
Qed.

Lemma py_min_Qmin (a b : Q) : (py_min a b == Qmin a b)%Q.
Proof.
  unfold py_min. destruct (Qltb b a) eqn:E.
  - apply Qltb_true in E. symmetry. apply Q.min_r. by apply Qlt_le_weak.
  - apply Qltb_false in E. symmetry. by apply Q.min_l.
Qed.

Lemma clamp_range (x : Q) :
  (7 # 10 <= py_max (7 # 10) (py_min (99 # 100) x))%Q
  ∧ (py_max (7 # 10) (py_min (99 # 100) x) <= 99 # 100)%Q.
Proof.
  unfold py_max, py_min.
  destruct (Qltb x (99 # 100)) eqn:E1.
  - destruct (Qltb (7 # 10) x) eqn:E2.
    + apply Qltb_true in E1, E2. split; lra.
    + split; [apply Qle_refl | done].
  - destruct (Qltb (7 # 10) (99 # 100)) eqn:E2.
    + split; [done | apply Qle_refl].
    + done.
Qed.

(** ** Predictive QoS-aware scheduling *)

Lemma fluctuate_spec (node : Node) (g : Random) :
  fluctuated node (fluctuate node g).1
  ∧ cursor (fluctuate node g).2 = (cursor g + 3)%nat.
Proof.
  unfold fluctuate.
  pose proof (choice_elem_of (-1) [0; 1] g) as H1.
  pose proof (choice_cursor (-1) [0; 1] g) as C1.
  destruct (choice (-1) [0; 1] g) as [d1 g1].
  pose proof (choice_elem_of (-10) [0; 10] g1) as H2.
  pose proof (choice_cursor (-10) [0; 10] g1) as C2.
  destruct (choice (-10) [0; 10] g1) as [d2 g2].
  pose proof (choice_elem_of (- (1 # 100))%Q [0%Q; 1 # 100] g2) as H3.
  pose proof (choice_cursor (- (1 # 100))%Q [0%Q; 1 # 100] g2) as C3.
  destruct (choice (- (1 # 100))%Q [0%Q; 1 # 100] g2) as [d3 g3].
  simpl in *. split; [|lia].
  unfold fluctuated. simpl. split_and!; try done.
  - by exists d1.
  - by exists d2.
  - exists d3. split; [done|].
    by rewrite py_max_Qmax, py_min_Qmin.
Qed.

Lemma fluctuate_all_spec (nodes : list Node) (g : Random) :
  Forall2 fluctuated nodes (fluctuate_all nodes g).1
  ∧ cursor (fluctuate_all nodes g).2 = (cursor g + 3 * length nodes)%nat.
Proof.
  revert g. induction nodes as [|node nodes IH]; intros g.
  - simpl. split; [constructor | lia].
  - cbn [fluctuate_all].
    destruct (fluctuate_spec node g) as [H1 C1].
    destruct (fluctuate node g) as [node' g1].
    destruct (IH g1) as [H2 C2].
    destruct (fluctuate_all nodes g1) as [rest' g2].
    cbn [fst snd length] in *. split; [by constructor | lia].
Qed.

(** The head of the list sorted by descending score is the first node of
    maximal score. *)
Lemma scored_head (nodes : list Node) :
  nodes ≠ [] →
  ∃ r node,
    getitem (sorted_reverse Qltb (score ∘ snd) (enumerate nodes)) 0
    = Ok (r, node)
    ∧ nodes !! r = Some node
    ∧ first_max nodes r.
Proof.
  intros Hne.
  set (scored := sorted_reverse Qltb (score ∘ snd) (enumerate nodes)).
  assert (Hlen : length scored = length nodes).
  { unfold scored. rewrite sorted_reverse_perm. apply length_imap. }
  destruct scored as [|[r node] rest] eqn:Hs.
  { destruct nodes; simpl in Hlen; [done | lia]. }
  destruct (head_sorted_reverse Qltb (score ∘ snd) Qltb_asym Qltb_le_trans
              (enumerate nodes) (r, node)) as (l1 & l2 & Hl & H1 & H2).
  { fold scored. by rewrite Hs. }
  assert (Hr : r = length l1).
  { pose proof (enumerate_fst nodes) as Hfst.
    rewrite Hl, fmap_app, fmap_cons in Hfst.
    assert (Hk : seq 0 (length nodes) !! length l1 = Some r).
    { rewrite <-Hfst, lookup_app_r by (by rewrite length_fmap).
      by rewrite length_fmap, Nat.sub_diag. }
    apply lookup_seq in Hk as [Hk _]. done. }
  assert (Hnode : nodes !! r = Some node).
  { apply enumerate_elem_of. rewrite Hl.
    apply elem_of_app. right. by left. }
  exists r, node. split_and!; [done..|].
  exists node. split_and!; [done| |].
  - intros j x Hx.
    assert (Hin : (j, x) ∈ l1 ++ (r, node) :: l2).
    { rewrite <-Hl. by apply enumerate_elem_of. }
    apply elem_of_app in Hin as [Hin|Hin].
    + rewrite Forall_forall in H1. specialize (H1 _ Hin). simpl in H1.
      apply Qltb_true in H1. by apply Qlt_le_weak.
    + apply elem_of_cons in Hin as [Hin|Hin].
      * simplify_eq. apply Qle_refl.
      * rewrite Forall_forall in H2. specialize (H2 _ Hin). simpl in H2.
        by apply Qltb_false in H2.
  - intros j x Hx Hj.
    assert (Hjx : (l1 ++ (r, node) :: l2) !! j = Some (j, x)).
    { by rewrite <-Hl, enumerate_lookup, Hx. }
    rewrite lookup_app_l in Hjx by lia.
    apply list_elem_of_lookup_2 in Hjx.
    rewrite Forall_forall in H1. specialize (H1 _ Hjx). simpl in H1.
    by apply Qltb_true in H1.
Qed.

Lemma predictive_body_spec (i : nat) (task : Task) (nodes : list Node)
    (g : Random) :
  nodes ≠ [] →
  ∃ nodes1 r node g1,
    predictive_body i task (nodes, g)
    = Ok ((task_id task, id node),
          (alter (add_load (Workload task)) r nodes1, g1))
    ∧ Forall2 fluctuated nodes nodes1
    ∧ first_max nodes1 r
    ∧ nodes1 !! r = Some node
    ∧ cursor g1 = (cursor g + 3 * length nodes)%nat.
Proof.
  intros Hne. unfold predictive_body.
  destruct (fluctuate_all_spec nodes g) as [Hfl Hcur].
  destruct (fluctuate_all nodes g) as [nodes1 g1]. simpl in *.
  assert (Hne1 : nodes1 ≠ []).
  { apply Forall2_length in Hfl. destruct nodes, nodes1; done. }
  destruct (scored_head nodes1 Hne1) as (r & node & Hhead & Hnode & Hmax).
  exists nodes1, r, node, g1. split_and!; try done.
  rewrite Hhead, Ok_bind.
  by rewrite (proj2 (getitem_Ok _ _ _) Hnode), Ok_bind.
Qed.

Lemma predictive_loop_spec (tasks : list Task) (i : nat) (nodes : list Node)
    (g : Random) :
  nodes ≠ [] →
  ∃ out nodes' g',
    for_enumerate predictive_body i tasks (nodes, g) = Ok (out, (nodes', g'))
    ∧ predictive_run nodes tasks out nodes'
    ∧ length nodes' = length nodes
    ∧ cursor g' = (cursor g + 3 * length nodes * length tasks)%nat.
Proof.
  revert i nodes g.
  induction tasks as [|task tasks IH]; intros i nodes g Hne.
  - exists [], nodes, g. simpl. split_and!; [done|constructor|done|lia].
  - destruct (predictive_body_spec i task nodes g Hne)
      as (nodes1 & r & node & g1 & Hbody & Hfl & Hmax & Hnode & Hcur).
    assert (Hlen1 : length nodes1 = length nodes).
    { symmetry. by eapply Forall2_length. }
    destruct (IH (S i) (alter (add_load (Workload task)) r nodes1) g1)
      as (out & nodes' & g' & Hrun & Hspec & Hlen & Hcur').
    { intros E. apply (f_equal length) in E.
      rewrite length_alter, Hlen1 in E. by destruct nodes. }
    exists ((task_id task, id node) :: out), nodes', g'. split_and!.
    + cbn [for_enumerate]. rewrite Hbody, Ok_bind. by rewrite Hrun.
    + by econstructor.
    + by rewrite Hlen, length_alter.
    + rewrite Hcur', Hcur, length_alter, Hlen1. cbn [length]. nia.
Qed.

(** ** Every strategy places every task once, on an existing node *)

(** An output that pairs task [i] with the id of some input node lists the
    task ids in task order and names input nodes only. *)
Lemma placement_of_lookup (nodes : list Node) (ts : list Task)
    (out : list assignment) :
  length out = length ts →
  (∀ i t, ts !! i = Some t →
     ∃ node, node ∈ nodes ∧ out !! i = Some (task_id t, id node)) →
  out.*1 = task_id <$> ts ∧ Forall (λ a, a.2 ∈ id <$> nodes) out.
Proof.
  intros Hlen Hidx. split.
  - apply list_eq. intros i. rewrite !list_lookup_fmap.
    destruct (ts !! i) as [t|] eqn:E.
    + destruct (Hidx i t E) as (node & _ & Hi). by rewrite Hi.
    + apply lookup_ge_None in E.
      rewrite (proj2 (lookup_ge_None out i)); [done | lia].
  - apply Forall_lookup. intros i a Ha.
    destruct (ts !! i) as [t|] eqn:E.
    + destruct (Hidx i t E) as (node & Hin & Hi).
      assert (a = (task_id t, id node)) as -> by congruence.
      simpl. by apply list_elem_of_fmap_2.
    + apply lookup_ge_None in E. apply lookup_lt_Some in Ha. lia.
Qed.

Lemma fluctuated_ids (nodes nodes1 : list Node) :
  Forall2 fluctuated nodes nodes1 → id <$> nodes1 = id <$> nodes.
Proof.
  induction 1 as [|n n1 nodes nodes1 (Hid & _) _ IH]; [done|].
  rewrite !fmap_cons. by f_equal.
Qed.

Lemma alter_add_load_ids (w : Z) (r : nat) (nodes : list Node) :
  id <$> alter (add_load w) r nodes = id <$> nodes.
Proof.
  apply list_eq. intros i. rewrite !list_lookup_fmap, list_lookup_alter.
  destruct (decide (r = i)) as [->|]; [|done]. by destruct (nodes !! i).
Qed.

Lemma predictive_run_placement (nodes : list Node) (tasks : list Task)
    (out : list assignment) (nodes' : list Node) :
  predictive_run nodes tasks out nodes' →
  out.*1 = task_id <$> tasks
  ∧ Forall (λ a, a.2 ∈ id <$> nodes) out
  ∧ id <$> nodes' = id <$> nodes.
Proof.
  induction 1 as [|nodes task rest nodes1 r node out nodes' Hfl Hmax Hnode
                   _ (IH1 & IH2 & IH3)]; [by repeat constructor|].
  rewrite alter_add_load_ids, (fluctuated_ids _ _ Hfl) in IH2, IH3.
  split_and!; [by rewrite fmap_cons, IH1| |done].
  constructor; [|done]. simpl.
  rewrite <-(fluctuated_ids _ _ Hfl). apply list_elem_of_fmap_2.
  by eapply list_elem_of_lookup_2.
Qed.


(** The cyclic walk over any valid order places every task, in loop
    order, on an input node. *)
Lemma cyclic_placement (order : list nat) (nodes : list Node)
    (ts : list Task) :
  nodes ≠ [] → length order = length nodes →
  Forall (λ r, r < length nodes)%nat order →
  ∃ out nodes',
    for_enumerate (sorted_body order) 0 ts nodes = Ok (out, nodes')
    ∧ out.*1 = task_id <$> ts
    ∧ Forall (λ a, a.2 ∈ id <$> nodes) out.
Proof.
  intros Hne Hlen Hvalid.
  assert (Hn : length nodes ≠ O) by (by destruct nodes).
  destruct (sorted_loop_spec order (length nodes) Hn Hlen Hvalid ts 0 nodes
              eq_refl) as (out & nodes' & Hrun & _ & Hout & Hidx & _).
  destruct (placement_of_lookup nodes ts out Hout) as [H1 H2].
  { intros i t Ht. destruct (Hidx i t Ht) as (r & node & _ & Hnode & Hi).
    exists node. split; [by eapply list_elem_of_lookup_2 | done]. }
  by exists out, nodes'.
Qed.

(** C1. With at least one node, each of the four strategies returns
    normally, with one assignment a task: the task ids of the output are a
    rearrangement of the task ids of the input (the same list, for the
    strategies that keep the task order), so that every id occurs in the
    output as often as in the input, exactly once when the input ids are
    pairwise distinct; and every node id of the output is the id of an
    input node. *)
Theorem schedule_placement (alg : algorithm) (nodes : list Node)
    (tasks : list Task) (g : Random) :
  nodes ≠ [] →
  ∃ out nodes' g',
    schedule alg nodes tasks g = Ok (out, (nodes', g'))
    ∧ length out = length tasks
    ∧ out.*1 ≡ₚ task_id <$> tasks
    ∧ (alg ≠ ShortestJobFirst → out.*1 = task_id <$> tasks)
    ∧ (∀ tid, count_occ String.string_dec out.*1 tid
              = count_occ String.string_dec (task_id <$> tasks) tid)
    ∧ (NoDup (task_id <$> tasks) →
         ∀ t, t ∈ tasks → count_occ String.string_dec out.*1 (task_id t) = 1%nat)
    ∧ Forall (λ a, a.2 ∈ id <$> nodes) out.
Proof.
  intros Hne.
  assert (Hgoal : ∃ out nodes' g',
    schedule alg nodes tasks g = Ok (out, (nodes', g'))
    ∧ out.*1 ≡ₚ task_id <$> tasks
    ∧ (alg ≠ ShortestJobFirst → out.*1 = task_id <$> tasks)
    ∧ Forall (λ a, a.2 ∈ id <$> nodes) out).
  { destruct alg; simpl.
    - destruct (cyclic_placement (seq 0 (length nodes)) nodes tasks Hne
                  (length_seq _ _) (seq_valid _))
        as (out & nodes' & Hrun & H1 & H2).
      exists out, nodes', g. unfold round_robin.
      rewrite round_robin_loop_sorted_body, Hrun, H1. done.
    - destruct (cyclic_placement
                  (sorted Z.ltb (Load ∘ snd) (enumerate nodes)).*1 nodes
                  (sorted Z.ltb Workload tasks) Hne
                  (sorted_copy_length _ _ _) (sorted_copy_valid _ _ _))
        as (out & nodes' & Hrun & H1 & H2).
      exists out, nodes', g. unfold shortest_job_first.
      rewrite Hrun, H1. split_and!; [done| |done..].
      apply fmap_Permutation, sorted_perm.
    - destruct (cyclic_placement
                  (sorted Qltb (Cost ∘ snd) (enumerate nodes)).*1 nodes
                  tasks Hne
                  (sorted_copy_length _ _ _) (sorted_copy_valid _ _ _))
        as (out & nodes' & Hrun & H1 & H2).
      exists out, nodes', g. unfold economic. rewrite Hrun, H1. done.
    - destruct (predictive_loop_spec tasks 0 nodes g Hne)
        as (out & nodes' & g' & Hrun & Hspec & _).
      destruct (predictive_run_placement _ _ _ _ Hspec) as (H1 & H2 & _).
      exists out, nodes', g'. unfold predictive_qos. rewrite Hrun, H1. done. }
  destruct Hgoal as (out & nodes' & g' & Hrun & Hperm & Heq & Hin).
  exists out, nodes', g'. split_and!; try done.
  - by rewrite <-(length_fmap fst), Hperm, length_fmap.
  - by apply Permutation_count_occ.
  - intros Hnd t Ht.
    rewrite (proj1 (Permutation_count_occ String.string_dec _ _) Hperm).
    apply NoDup_ListNoDup in Hnd.
    apply (proj1 (NoDup_count_occ' String.string_dec _) Hnd).
    apply list_elem_of_In. by apply list_elem_of_fmap_2.
Qed.

(** ** Grid setup *)

Lemma node_name_inj : Inj (=) (=) node_name.
Proof.
  intros i j H. unfold node_name in H.
  apply (inj (String.app "Node-")), (inj pretty) in H. lia.
Qed.

Lemma task_name_inj : Inj (=) (=) task_name.
Proof.
  intros i j H. unfold task_name in H.
  apply (inj (String.app "Task-")), (inj pretty) in H. lia.
Qed.

Lemma create_nodes_from_spec (n i : nat) (g : Random) :
  id <$> (create_nodes_from i n g).1 = node_name <$> seq i n
  ∧ Forall node_in_range (create_nodes_from i n g).1.
Proof.
  revert i g. induction n as [|n IH]; intros i g.
  - by split.
  - cbn [create_nodes_from].
    pose proof (randint_range 2 10 g ltac:(lia)) as Hcpu.
    destruct (randint 2 10 g) as [cpu g1].
    pose proof (randint_range 8 32 g1 ltac:(lia)) as Hmem.
    destruct (randint 8 32 g1) as [memory g2].
    pose proof (randint_range 50 150 g2 ltac:(lia)) as Hbw.
    destruct (randint 50 150 g2) as [bandwidth g3].
    pose proof (uniform_range (85 # 100) (99 # 100) g3 ltac:(by vm_compute))
      as [Hr1 Hr2].
    destruct (uniform (85 # 100) (99 # 100) g3) as [rel g4].
    pose proof (uniform_range (5 # 10) 3 g4 ltac:(by vm_compute)) as [Hc1 Hc2].
    destruct (uniform (5 # 10) 3 g4) as [cost g5].
    destruct (IH (S i) g5) as [IH1 IH2].
    destruct (create_nodes_from (S i) n g5) as [rest g6].
    cbn [fst snd] in *.
    split.
    + rewrite fmap_cons, IH1. reflexivity.
    + constructor; [|done].
      destruct (py_round_2_range 85 99 rel Hr1 Hr2) as [Hr3 Hr4].
      destruct (py_round_2_range 50 300 cost) as [Hc3 Hc4]; [lra..|].
      unfold node_in_range. cbn [CPU Memory Bandwidth Reliability Cost Load].
      split_and!; done || lia || lra.
Qed.

Lemma create_tasks_from_spec (n i : nat) (g : Random) :
  task_id <$> (create_tasks_from i n g).1 = task_name <$> seq i n
  ∧ Forall task_in_range (create_tasks_from i n g).1.
Proof.
  revert i g. induction n as [|n IH]; intros i g.
  - by split.
  - cbn [create_tasks_from].
    pose proof (randint_range 3 10 g ltac:(lia)) as Hw.
    destruct (randint 3 10 g) as [workload g1].
    pose proof (choice_elem_of "Low" ["Medium"; "High"] g1) as Hp.
    destruct (choice "Low" ["Medium"; "High"] g1) as [prio g2].
    pose proof (randint_range 3 9 g2 ltac:(lia)) as Hs.
    destruct (randint 3 9 g2) as [sla g3].
    destruct (IH (S i) g3) as [IH1 IH2].
    destruct (create_tasks_from (S i) n g3) as [rest g4].
    cbn [fst snd] in *.
    split.
    + rewrite fmap_cons, IH1. reflexivity.
    + constructor; [|done]. unfold task_in_range. simpl. done.
Qed.

(** C6. For every count [n] and every random source, [create_nodes]
    returns exactly [n] nodes; node [i] (counted from 0) is named
    "Node-" followed by the decimal digits of [i + 1], so the ids are
    pairwise distinct; cpu is in [2,10], memory in [8,32], bandwidth in
    [50,150], reliability in [0.85,0.99], cost in [0.5,3.0] and load is 0.
    [create_tasks] likewise returns [n] tasks named "Task-" and the digits
    of [i + 1], with workload in [3,10], SLA time in [3,9] and priority one
    of "Low", "Medium", "High". *)
Theorem create_nodes_tasks_spec (n : nat) (g : Random) :
  (length (create_nodes n g).1 = n
   ∧ NoDup (id <$> (create_nodes n g).1)
   ∧ (∀ i node, (create_nodes n g).1 !! i = Some node →
        id node = "Node-" +:+ pretty (i + 1)%nat)
   ∧ Forall node_in_range (create_nodes n g).1)
  ∧ (length (create_tasks n g).1 = n
     ∧ NoDup (task_id <$> (create_tasks n g).1)
     ∧ (∀ i task, (create_tasks n g).1 !! i = Some task →
          task_id task = "Task-" +:+ pretty (i + 1)%nat)
     ∧ Forall task_in_range (create_tasks n g).1).
Proof.
  unfold create_nodes, create_tasks.
  destruct (create_nodes_from_spec n 0 g) as [Hn1 Hn2].
  destruct (create_tasks_from_spec n 0 g) as [Ht1 Ht2].
  split; split_and!; try done.
  - by rewrite <-(length_fmap id), Hn1, length_fmap, length_seq.
  - rewrite Hn1. apply (@NoDup_fmap_2 _ _ node_name node_name_inj), NoDup_seq.
  - intros i node Hi.
    assert (H : (id <$> (create_nodes_from 0 n g).1) !! i = Some (id node))
      by (by rewrite list_lookup_fmap, Hi).
    rewrite Hn1, list_lookup_fmap in H.
    destruct (seq 0 n !! i) as [j|] eqn:E; simplify_eq/=.
    apply lookup_seq in E as [-> _]. done.
  - by rewrite <-(length_fmap task_id), Ht1, length_fmap, length_seq.
  - rewrite Ht1. apply (@NoDup_fmap_2 _ _ task_name task_name_inj), NoDup_seq.
  - intros i task Hi.
    assert (H : (task_id <$> (create_tasks_from 0 n g).1) !! i
                = Some (task_id task))
      by (by rewrite list_lookup_fmap, Hi).
    rewrite Ht1, list_lookup_fmap in H.
    destruct (seq 0 n !! i) as [j|] eqn:E; simplify_eq/=.
    apply lookup_seq in E as [-> _]. done.
Qed.

(** ** Evaluation *)

Lemma next_by_id_Ok {A} (get_id : A → string) (l : list A) (i : string)
    (x : A) :
  next_by_id get_id l i = Ok x → x ∈ l ∧ get_id x = i.
Proof.
  unfold next_by_id. destruct (find _ l) as [y|] eqn:E; [|done].
  intros [= ->]. apply find_some in E as [Hin Hx].
  split; [by apply list_elem_of_In | by apply bool_decide_eq_true in Hx].
Qed.

Lemma py_div_Ok (a b : Q) : ¬ (b == 0)%Q → py_div a b = Ok (a / b)%Q.
Proof.
  intros Hb. unfold py_div. destruct (Qeq_bool b 0) eqn:E; [|done].
  by apply Qeq_bool_iff in E.
Qed.

Lemma py_div_inv (a b q : Q) :
  py_div a b = Ok q → ¬ (b == 0)%Q ∧ q = (a / b)%Q.
Proof.
  unfold py_div. destruct (Qeq_bool b 0) eqn:E; [done|].
  intros [= <-]. split; [|done].
  intros Hb. apply Qeq_bool_iff in Hb. congruence.
Qed.

Lemma inject_Z_nonzero (z : Z) : z ≠ 0 ↔ ¬ (inject_Z z == 0)%Q.
Proof. unfold Qeq. simpl. lia. Qed.

Lemma py_round_nonneg (x : Q) (ndigits : nat) :
  (0 <= x)%Q → (0 <= py_round x ndigits)%Q.
Proof.
  intros Hx. unfold py_round.
  assert (H : 0 ≤ round_half_even
                    (x * inject_Z (Z.pos (Pos.of_nat (10 ^ ndigits))))).
  { apply round_half_even_lb. apply Qmult_le_0_compat; [done|].
    unfold Qle. simpl. lia. }
  unfold Qle. simpl. lia.
Qed.

Lemma evaluate_one_inv (a : assignment) (tasks : list Task)
    (nodes : list Node) (g g' : Random) (r : EvalRecord) :
  evaluate_one a tasks nodes g = Ok (r, g') →
  ∃ node task latency qos,
    next_by_id id nodes a.2 = Ok node
    ∧ next_by_id task_id tasks a.1 = Ok task
    ∧ CPU node ≠ 0
    ∧ r = row_of a.1 a.2 task node latency qos.
Proof.
  destruct a as [tid nid]. unfold evaluate_one. intros H.
  apply bind_Ok in H as (node & Hnode & H).
  apply bind_Ok in H as (task & Htask & H).
  destruct (uniform (1 # 10) (15 # 10) g) as [u g1].
  apply bind_Ok in H as (q & Hq & H).
  apply bind_Ok in H as (d & Hd & H).
  apply bind_Ok in H as (e & He & H).
  apply bind_Ok in H as (x & Hx & H).
  apply py_div_inv in Hd as [_ ->]. apply py_div_inv in He as [Hcpu ->].
  simplify_eq. exists node, task. do 2 eexists.
  split_and!; [done..| |reflexivity].
  by apply inject_Z_nonzero.
Qed.

Lemma evaluate_one_Ok (t_id node_id : string) (tasks : list Task)
    (nodes : list Node) (g : Random) (node : Node) (task : Task) :
  next_by_id id nodes node_id = Ok node →
  next_by_id task_id tasks t_id = Ok task →
  0 < Bandwidth node → Workload task + 1 ≠ 0 → CPU node ≠ 0 →
  ∃ latency qos g',
    evaluate_one (t_id, node_id) tasks nodes g
    = Ok (row_of t_id node_id task node latency qos, g').
Proof.
  intros Hnode Htask Hbw Hw Hcpu. unfold evaluate_one.
  rewrite Hnode, Ok_bind, Htask, Ok_bind.
  pose proof (uniform_range (1 # 10) (15 # 10) g ltac:(by vm_compute))
    as [Hu _].
  destruct (uniform (1 # 10) (15 # 10) g) as [u g1]. cbn [fst] in Hu.
  assert (Hlat : (0 <= py_round (u * (10 / inject_Z (Bandwidth node))) 3)%Q).
  { apply py_round_nonneg. apply Qmult_le_0_compat; [lra|].
    apply Qle_shift_div_l; [|lra].
    unfold Qlt. simpl. lia. }
  set (latency := py_round (u * (10 / inject_Z (Bandwidth node))) 3) in *.
  set (throughput :=
         py_round (inject_Z (Bandwidth node) / inject_Z (Workload task + 1))
                  2).
  exists latency,
    (py_round (throughput * Reliability node / (1 + latency)) 3), g1.
  rewrite (py_div_Ok 10) by (apply (proj1 (inject_Z_nonzero _)); lia).
  rewrite Ok_bind.
  rewrite (py_div_Ok (inject_Z (Bandwidth node)))
    by (by apply (proj1 (inject_Z_nonzero _))).
  rewrite Ok_bind.
  rewrite (py_div_Ok (inject_Z (Workload task)))
    by (by apply (proj1 (inject_Z_nonzero _))).
  rewrite Ok_bind.
  rewrite py_div_Ok by (fold latency; lra).
  reflexivity.
Qed.

Lemma evaluate_inv (assignments : list assignment) (tasks : list Task)
    (nodes : list Node) (g g' : Random) (results : list EvalRecord) :
  evaluate assignments tasks nodes g = Ok (results, g') →
  Forall2 (λ a r, ∃ node task latency qos,
             next_by_id id nodes a.2 = Ok node
             ∧ next_by_id task_id tasks a.1 = Ok task
             ∧ CPU node ≠ 0
             ∧ r = row_of a.1 a.2 task node latency qos)
          assignments results.
Proof.
  revert g results.
  induction assignments as [|a rest IH]; intros g results H; simpl in H.
  - simplify_eq. constructor.
  - apply bind_Ok in H as ([r g1] & Hone & H).
    apply bind_Ok in H as ([rs g2] & Hrest & H). simplify_eq.
    constructor; [by eapply evaluate_one_inv | by eapply IH].
Qed.



(** The figures of the evaluator on binary64 floats: 5 / 5 is 1.0, which is
    at most 2; 100 / 6 rounds to the float written 16.67; 10 / 3 rounds to
    3.33; 3001 / 1000 is above 3 and rounds to 3.0. *)
Lemma binary64_figures :
  Binary64.truediv 5 5 = Binary64.of_int 1
  ∧ Binary64.le_int (Binary64.truediv 5 5) 2 = true
  ∧ Binary64.round (Binary64.truediv 100 6) 2
    = Some (Binary64.truediv 1667 100)
  ∧ Binary64.round (Binary64.truediv 10 3) 2
    = Some (Binary64.truediv 333 100)
  ∧ Binary64.le_int (Binary64.truediv 3001 1000) 3 = false
  ∧ Binary64.round (Binary64.truediv 3001 1000) 2 = Some (Binary64.of_int 3).
Proof. repeat split; vm_compute; reflexivity. Qed.



(** ** Aggregation *)

Lemma foldl_Qplus (l : list Q) (a : Q) : (foldl Qplus a l == a + Qsum l)%Q.
Proof.
  revert a. induction l as [|x l IH]; intros a; simpl.
  - unfold Qsum. simpl. lra.
  - rewrite IH. unfold Qsum. simpl. lra.
Qed.

(** The outcome of the aggregation on an empty table is the exception of
    the division by [len(results)], and no other. *)
Lemma aggregate_empty_raises_ZeroDivisionError :
  aggregate [] = Raise ZeroDivisionError
  ∧ ¬ (∃ e, aggregate [] = Raise e ∧ e ≠ ZeroDivisionError).
Proof.
  split; [reflexivity|].
  intros (e & He & Hne). vm_compute in He. congruence.
Qed.

(** C8, amended. On an empty table the aggregation raises the
    ZeroDivisionError of its division by [len(results)]; on a table of at
    least one row it returns the fraction of rows with the check mark,
    which lies in [0, 1], and the mean of the QoS scores. *)
Theorem aggregate_spec :
  aggregate [] = Raise ZeroDivisionError
  ∧ ∀ (r : EvalRecord) (rs : list EvalRecord),
      ∃ rate avg_qos,
        aggregate (r :: rs) = Ok (rate, avg_qos)
        ∧ (rate
           == inject_Z (Z.of_nat (length (filter (λ x, SLA_Met x = CheckMark)
                                                 (r :: rs))))
              / inject_Z (Z.of_nat (length (r :: rs))))%Q
        ∧ (0 <= rate)%Q ∧ (rate <= 1)%Q
        ∧ (avg_qos
           == Qsum (QoS_Score <$> r :: rs)
              / inject_Z (Z.of_nat (length (r :: rs))))%Q.
Proof.
  split; [reflexivity|]. intros r rs.
  set (results := r :: rs).
  set (n := inject_Z (Z.of_nat (length results))).
  set (c := inject_Z (Z.of_nat
                        (length (filter (λ x, SLA_Met x = CheckMark) results)))).
  assert (Hn : (0 < n)%Q).
  { unfold n, Qlt. cbn [Qnum Qden inject_Z]. unfold results. simpl length.
    lia. }
  assert (Hc : (0 <= c)%Q ∧ (c <= n)%Q).
  { pose proof (length_filter (λ x, SLA_Met x = CheckMark) results).
    unfold c, n, Qle. cbn [Qnum Qden inject_Z]. lia. }
  exists (c / n)%Q, (foldl Qplus 0 (QoS_Score <$> results) / n)%Q.
  split_and!.
  - unfold aggregate. fold results. fold n. fold c.
    rewrite !py_div_Ok by lra. reflexivity.
  - reflexivity.
  - apply Qle_shift_div_l; lra.
  - apply Qle_shift_div_r; lra.
  - rewrite foldl_Qplus. field. lra.
Qed.

(** ** The node-state invariant *)

Lemma node_in_range_inv (n : Node) : node_in_range n → node_inv n.
Proof.
  unfold node_in_range, node_inv.
  intros (? & ? & ? & ? & ? & ? & ? & ?). split_and!; try lia; lra.
Qed.

Lemma add_load_inv (w : Z) (n : Node) :
  0 < w → node_inv n →
  node_inv (add_load w n) ∧ Load n < Load (add_load w n).
Proof.
  unfold node_inv, add_load. simpl. intros ? (? & ? & ? & ? & ?).
  split_and!; done || lia.
Qed.

Lemma fluctuate_inv (n : Node) (g : Random) :
  0 ≤ Load n →
  node_inv (fluctuate n g).1 ∧ Load (fluctuate n g).1 = Load n.
Proof.
  intros Hload. unfold fluctuate.
  destruct (choice (-1) [0; 1] g) as [d1 g1].
  destruct (choice (-10) [0; 10] g1) as [d2 g2].
  destruct (choice (- (1 # 100))%Q [0%Q; 1 # 100] g2) as [d3 g3].
  unfold node_inv. cbn [fst Load Reliability CPU Bandwidth].
  destruct (clamp_range (Reliability n + d3)) as [H1 H2].
  split_and!; done || lia.
Qed.

Lemma fluctuate_all_inv (nodes : list Node) (g : Random) :
  Forall node_inv nodes →
  Forall node_inv (fluctuate_all nodes g).1
  ∧ Forall2 (λ n n', Load n = Load n') nodes (fluctuate_all nodes g).1.
Proof.
  revert g. induction nodes as [|n nodes IH]; intros g Hinv.
  - by split; constructor.
  - apply Forall_cons in Hinv as [Hn Hinv]. cbn [fluctuate_all].
    destruct (fluctuate_inv n g) as [H1 H2]; [by destruct Hn|].
    destruct (fluctuate n g) as [n' g1].
    destruct (IH g1 Hinv) as [H3 H4].
    destruct (fluctuate_all nodes g1) as [rest g2]. cbn [fst] in *.
    split; by constructor.
Qed.

(** What one in-place [Load] update does to the invariant and the loads. *)
Lemma alter_add_load_inv (w : Z) (r : nat) (nodes0 nodes : list Node) :
  0 < w → run_inv nodes0 nodes →
  run_inv nodes0 (alter (add_load w) r nodes).
Proof.
  intros Hw [Hinv Hmono]. split.
  - apply Forall_alter; [done|]. intros n _ Hn.
    by apply add_load_inv.
  - apply Forall2_alter_r; [done|]. intros n0 n _ _ Hle.
    unfold add_load. simpl. lia.
Qed.

Lemma round_robin_body_inv (nodes0 : list Node) (i : nat) (t : Task)
    (nodes nodes' : list Node) (a : assignment) :
  0 < Workload t → run_inv nodes0 nodes →
  round_robin_body i t nodes = Ok (a, nodes') → run_inv nodes0 nodes'.
Proof.
  intros Hw Hinv H. unfold round_robin_body in H.
  apply bind_Ok in H as (k & _ & H). apply bind_Ok in H as (node & _ & H).
  simplify_eq. by apply alter_add_load_inv.
Qed.

Lemma sorted_body_inv (order : list nat) (nodes0 : list Node) (i : nat)
    (t : Task) (nodes nodes' : list Node) (a : assignment) :
  0 < Workload t → run_inv nodes0 nodes →
  sorted_body order i t nodes = Ok (a, nodes') → run_inv nodes0 nodes'.
Proof.
  intros Hw Hinv H. unfold sorted_body in H.
  apply bind_Ok in H as (k & _ & H). apply bind_Ok in H as (r & _ & H).
  apply bind_Ok in H as (node & _ & H).
  simplify_eq. by apply alter_add_load_inv.
Qed.

Lemma predictive_body_inv (nodes0 : list Node) (i : nat) (t : Task)
    (s s' : list Node * Random) (a : assignment) :
  0 < Workload t → run_inv nodes0 s.1 →
  predictive_body i t s = Ok (a, s') → run_inv nodes0 s'.1.
Proof.
  intros Hw [Hinv Hmono] H. destruct s as [nodes g]. unfold predictive_body in H.
  destruct (fluctuate_all_inv nodes g Hinv) as [H1 H2].
  destruct (fluctuate_all nodes g) as [nodes1 g1]. cbn [fst] in *.
  apply bind_Ok in H as ([r x] & _ & H). apply bind_Ok in H as (node & _ & H).
  simplify_eq. cbn [fst]. apply alter_add_load_inv; [done|].
  split; [done|].
  revert H2. clear -Hmono. revert nodes1.
  induction Hmono as [|n0 n nodes0 nodes Hle _ IH]; intros nodes1 H2.
  - apply Forall2_nil_inv_l in H2 as ->. constructor.
  - apply Forall2_cons_inv_l in H2 as (n1 & rest & Heq & H2 & ->).
    constructor; [lia | by apply IH].
Qed.

Lemma run_inv_refl (nodes : list Node) :
  Forall node_inv nodes → run_inv nodes nodes.
Proof.
  intros H. split; [done|]. apply Forall_Forall2_diag.
  eapply Forall_impl; [exact H|]. intros. simpl. lia.
Qed.

(** The run stopped after all its iterations is the run. *)
Lemma schedule_prefix_full (alg : algorithm) (nodes : list Node)
    (tasks : list Task) (g : Random) :
  schedule_prefix alg (length tasks) nodes tasks g
  = schedule alg nodes tasks g.
Proof.
  destruct alg; cbn [schedule_prefix schedule].
  - by rewrite firstn_all.
  - unfold shortest_job_first.
    by rewrite <-(sorted_length Z.ltb Workload tasks), firstn_all.
  - by rewrite firstn_all.
  - by rewrite firstn_all.
Qed.

(** A run that returns has passed through a state after each number of
    iterations, with the assignments made so far. *)
Lemma schedule_prefix_defined (alg : algorithm) (nodes : list Node)
    (tasks : list Task) (g : Random) (out : list assignment)
    (s : list Node * Random) (k : nat) :
  schedule alg nodes tasks g = Ok (out, s) →
  ∃ sk, schedule_prefix alg k nodes tasks g = Ok (take k out, sk).
Proof.
  destruct alg; cbn [schedule_prefix schedule]; intros H.
  - apply bind_Ok in H as ([out1 nodes1] & Hloop & H). simplify_eq.
    destruct (for_enumerate_take _ _ _ _ _ _ k Hloop) as (sk & -> & _).
    by eexists.
  - apply bind_Ok in H as ([out1 nodes1] & Hloop & H). simplify_eq.
    destruct (for_enumerate_take _ _ _ _ _ _ k Hloop) as (sk & -> & _).
    by eexists.
  - apply bind_Ok in H as ([out1 nodes1] & Hloop & H). simplify_eq.
    destruct (for_enumerate_take _ _ _ _ _ _ k Hloop) as (sk & -> & _).
    by eexists.
  - destruct (for_enumerate_take _ _ _ _ _ _ k H) as (sk & -> & _).
    by eexists.
Qed.

(** C9. Every generated node satisfies the invariant (load at least 0,
    reliability in [0.70, 0.99], cpu at least 1, bandwidth at least 10).
    Adding a positive workload keeps it and strictly increases the load;
    fluctuating a node re-establishes its three clamped bounds and leaves
    the load alone.  Hence, for tasks of positive workload, the node list
    reached after any number of loop iterations of any strategy satisfies
    the invariant and has no load below the load at the start; this holds
    in particular for a generated grid and generated tasks.  The run
    stopped after all its iterations is the run itself, and a run that
    returns has passed through a state after each number of iterations. *)
Theorem node_invariant_preserved :
  (∀ n g, Forall node_inv (create_nodes n g).1)
  ∧ (∀ w node, 0 < w → node_inv node →
       node_inv (add_load w node) ∧ Load node < Load (add_load w node))
  ∧ (∀ node g, 0 ≤ Load node →
       node_inv (fluctuate node g).1
       ∧ Load (fluctuate node g).1 = Load node)
  ∧ (∀ alg k nodes tasks g out nodes' g',
       Forall node_inv nodes → Forall (λ t, 0 < Workload t) tasks →
       schedule_prefix alg k nodes tasks g = Ok (out, (nodes', g')) →
       Forall node_inv nodes'
       ∧ Forall2 (λ n n', Load n ≤ Load n') nodes nodes')
  ∧ (∀ alg k n m g out nodes' g',
       schedule_prefix alg k (create_nodes n g).1
         (create_tasks m (create_nodes n g).2).1
         (create_tasks m (create_nodes n g).2).2 = Ok (out, (nodes', g')) →
       Forall node_inv nodes')
  ∧ (∀ alg nodes tasks g,
       schedule_prefix alg (length tasks) nodes tasks g
       = schedule alg nodes tasks g)
  ∧ (∀ alg nodes tasks g out s k,
       schedule alg nodes tasks g = Ok (out, s) →
       ∃ sk, schedule_prefix alg k nodes tasks g = Ok (take k out, sk)).
Proof.
  assert (Hgen : ∀ n g, Forall node_inv (create_nodes n g).1).
  { intros n g. eapply Forall_impl;
      [apply (create_nodes_from_spec n 0 g) | apply node_in_range_inv]. }
  assert (Hrun : ∀ alg k nodes tasks g out nodes' g',
       Forall node_inv nodes → Forall (λ t, 0 < Workload t) tasks →
       schedule_prefix alg k nodes tasks g = Ok (out, (nodes', g')) →
       run_inv nodes nodes').
  { intros alg k nodes tasks g out nodes' g' Hinv Hpos H.
    apply run_inv_refl in Hinv.
    destruct alg; cbn [schedule_prefix] in H.
    - apply bind_Ok in H as ([out1 nodes1] & Hloop & H). simplify_eq.
      eapply (for_enumerate_invariant round_robin_body (run_inv nodes)
                (λ t, 0 < Workload t)); [|by apply Forall_take|done..].
      intros. by eapply round_robin_body_inv.
    - apply bind_Ok in H as ([out1 nodes1] & Hloop & H). simplify_eq.
      eapply (for_enumerate_invariant (sorted_body _) (run_inv nodes)
                (λ t, 0 < Workload t)); [| |done..].
      + intros. by eapply sorted_body_inv.
      + apply Forall_take. by rewrite sorted_perm.
    - apply bind_Ok in H as ([out1 nodes1] & Hloop & H). simplify_eq.
      eapply (for_enumerate_invariant (sorted_body _) (run_inv nodes)
                (λ t, 0 < Workload t)); [|by apply Forall_take|done..].
      intros. by eapply sorted_body_inv.
    - apply (for_enumerate_invariant predictive_body
               (λ s, run_inv nodes s.1) (λ t, 0 < Workload t)
               (λ i t s a s', predictive_body_inv nodes i t s s' a)
               0%nat (take k tasks) (nodes, g) out (nodes', g')
               (Forall_take _ _ _ Hpos) Hinv H). }
  split_and!; [exact Hgen|apply add_load_inv|apply fluctuate_inv| | |
               apply schedule_prefix_full|].
  3: { intros. by eapply schedule_prefix_defined. }
  - intros. by eapply Hrun.
  - intros alg k n m g out nodes' g' H.
    eapply Hrun; [apply Hgen| |exact H].
    eapply Forall_impl; [apply (create_tasks_from_spec m 0)|].
    intros t (Hw & _). simpl. lia.
Qed.

(** ** Instances on the sample data *)

Lemma sample_nodes_nonempty : sample_nodes ≠ [].
Proof. discriminate. Defined.

Lemma sample_tasks_NoDup : NoDup (task_id <$> sample_tasks).
Proof.
  apply (bool_decide_unpack (NoDup (task_id <$> sample_tasks))).
  vm_compute. exact I.
Defined.

(** On the sample grid the predictive strategy places each of the four
    sample tasks once, on a sample node. *)
Lemma schedule_placement_witness :
  ∃ out nodes' g',
    schedule PredictiveQoSAware sample_nodes sample_tasks sample_random
    = Ok (out, (nodes', g'))
    ∧ length out = 4%nat
    ∧ out.*1 = ["Task-1"; "Task-2"; "Task-3"; "Task-4"]
    ∧ count_occ String.string_dec out.*1 "Task-3" = 1%nat
    ∧ Forall (λ a, a.2 ∈ id <$> sample_nodes) out.
Proof.
  destruct (schedule_placement PredictiveQoSAware sample_nodes sample_tasks
              sample_random sample_nodes_nonempty)
    as (out & nodes' & g' & Hrun & Hlen & _ & Heq & _ & Honce & Hin).
  exists out, nodes', g'.
  split_and!; [exact Hrun | exact Hlen | | | exact Hin].
  - apply Heq. discriminate.
  - apply (Honce sample_tasks_NoDup (mkTask "Task-3" 3 "Medium" 9)).
    unfold sample_tasks. apply list_elem_of_In. simpl. tauto.
Defined.







Lemma sample_nodes_inv : Forall node_inv sample_nodes.
Proof.
  unfold sample_nodes.
  repeat first [apply Forall_nil_2 | apply Forall_cons_2];
    unfold node_inv; simpl; split_and!; try lia; by vm_compute.
Defined.

Lemma sample_tasks_positive : Forall (λ t, 0 < Workload t) sample_tasks.
Proof.
  unfold sample_tasks.
  repeat first [apply Forall_nil_2 | apply Forall_cons_2]; simpl; lia.
Defined.

Lemma generated_nodes_nonempty : (create_nodes 3 sample_random).1 ≠ [].
Proof. intros H. vm_compute in H. discriminate H. Defined.

Lemma node_invariant_preserved_witness :
  (∃ out nodes' g',
     schedule_prefix PredictiveQoSAware 2 sample_nodes sample_tasks
       sample_random = Ok (out, (nodes', g'))
     ∧ Forall node_inv nodes'
     ∧ Forall2 (λ n n', Load n ≤ Load n') sample_nodes nodes')
  ∧ (∃ out nodes' g',
       schedule_prefix PredictiveQoSAware 3 (create_nodes 3 sample_random).1
         (create_tasks 5 (create_nodes 3 sample_random).2).1
         (create_tasks 5 (create_nodes 3 sample_random).2).2
       = Ok (out, (nodes', g'))
       ∧ Forall node_inv nodes')
  ∧ node_inv (add_load 5 (mkNode "Node-1" 5 16 100 (9 # 10) 3 0))
  ∧ node_inv (fluctuate (mkNode "Node-1" 5 16 100 (9 # 10) 3 0)
                sample_random).1.
Proof.
  split_and!.
  - destruct (predictive_loop_spec (take 2 sample_tasks) 0 sample_nodes
                sample_random sample_nodes_nonempty)
      as (out & nodes' & g' & Hk & _).
    exists out, nodes', g'. split; [exact Hk|].
    exact (proj1 (proj2 (proj2 (proj2 node_invariant_preserved)))
             PredictiveQoSAware 2%nat sample_nodes sample_tasks sample_random
             out nodes' g' sample_nodes_inv sample_tasks_positive Hk).
  - destruct (predictive_loop_spec
                (take 3 (create_tasks 5 (create_nodes 3 sample_random).2).1)
                0 (create_nodes 3 sample_random).1
                (create_tasks 5 (create_nodes 3 sample_random).2).2
                generated_nodes_nonempty)
      as (out & nodes' & g' & Hk & _).
    exists out, nodes', g'. split; [exact Hk|].
    exact (proj1 (proj2 (proj2 (proj2 (proj2 node_invariant_preserved))))
             PredictiveQoSAware 3%nat 3%nat 5%nat sample_random
             out nodes' g' Hk).
  - refine (proj1 (proj1 (proj2 node_invariant_preserved) 5 _ _ _)).
    + reflexivity.
    + unfold node_inv. simpl. split_and!; try lia; by vm_compute.
  - refine (proj1 (proj1 (proj2 (proj2 node_invariant_preserved)) _ _ _)).
    simpl. lia.
Defined.


(** * Further properties of the engine *)

(** ** Scheduling with an empty pool or an empty task list *)

Lemma for_enumerate_raise {St}
    (body : nat → Task → St → result (assignment * St)) (e : exception)
    (i : nat) (t : Task) (ts : list Task) (s : St) :
  body i t s = Raise e → for_enumerate body i (t :: ts) s = Raise e.
Proof. intros H. cbn [for_enumerate]. by rewrite H. Qed.

Lemma sorted_cons_inv {A K} (lt : K → K → bool) (key : A → K) (x : A)
    (l : list A) :
  ∃ y l', sorted lt key (x :: l) = y :: l'.
Proof.
  pose proof (sorted_length lt key (x :: l)) as H.
  destruct (sorted lt key (x :: l)) as [|y l']; [done|]. eauto.
Qed.

(** X1. With no node and at least one task, the three cyclic schedulers fail on
    the modulo by [len(nodes)] and the predictive one on [scored[0]]; with
    no task, every strategy returns the empty assignment list and leaves the
    nodes and the random source as they are. *)
Theorem schedule_empty_inputs (t : Task) (ts : list Task) (g : Random) :
  round_robin [] (t :: ts) = Raise ZeroDivisionError
  ∧ shortest_job_first [] (t :: ts) = Raise ZeroDivisionError
  ∧ economic [] (t :: ts) = Raise ZeroDivisionError
  ∧ predictive_qos [] (t :: ts) g = Raise IndexError
  ∧ (∀ alg nodes, schedule alg nodes [] g = Ok ([], (nodes, g))).
Proof.
  split_and!.
  - by apply for_enumerate_raise.
  - unfold shortest_job_first.
    destruct (sorted_cons_inv Z.ltb Workload t ts) as (y & l' & ->).
    by apply for_enumerate_raise.
  - by apply for_enumerate_raise.
  - by apply for_enumerate_raise.
  - by intros [] nodes.
Qed.

(** ** Conservation of work *)

Lemma total_load_cons (n : Node) (nodes : list Node) :
  total_load (n :: nodes) = Load n + total_load nodes.
Proof. reflexivity. Qed.

Lemma total_load_alter (w : Z) (r : nat) (nodes : list Node) :
  (r < length nodes)%nat →
  total_load (alter (add_load w) r nodes) = total_load nodes + w.
Proof.
  revert r. induction nodes as [|n nodes IH]; intros r Hr.
  - simpl in Hr. lia.
  - destruct r as [|r].
    + change (alter (add_load w) 0%nat (n :: nodes))
        with (add_load w n :: nodes).
      rewrite !total_load_cons. simpl. lia.
    + change (alter (add_load w) (S r) (n :: nodes))
        with (n :: alter (add_load w) r nodes).
      simpl in Hr. rewrite !total_load_cons, IH by lia. lia.
Qed.

Lemma fluctuate_all_loads (nodes : list Node) (g : Random) :
  Load <$> (fluctuate_all nodes g).1 = Load <$> nodes.
Proof.
  revert g. induction nodes as [|n nodes IH]; intros g; [done|].
  cbn [fluctuate_all].
  assert (Hn : Load (fluctuate n g).1 = Load n).
  { unfold fluctuate. by repeat destruct (choice _ _ _). }
  destruct (fluctuate n g) as [n' g1]. specialize (IH g1).
  destruct (fluctuate_all nodes g1) as [rest g2]. cbn [fst] in *.
  by rewrite !fmap_cons, IH, Hn.
Qed.

Lemma total_work_cons (t : Task) (tasks : list Task) :
  total_work (t :: tasks) = Workload t + total_work tasks.
Proof. reflexivity. Qed.

(** A quantity that every successful iteration raises by the workload of
    its task ends raised by the total workload. *)
Lemma for_enumerate_accumulates {St}
    (body : nat → Task → St → result (assignment * St)) (f : St → Z) :
  (∀ i t s a s', body i t s = Ok (a, s') → f s' = f s + Workload t) →
  ∀ tasks i s out s',
    for_enumerate body i tasks s = Ok (out, s') →
    f s' = f s + total_work tasks.
Proof.
  intros Hstep.
  induction tasks as [|t tasks IH]; intros i s out s' H; simpl in H.
  - simplify_eq. unfold total_work. simpl. lia.
  - inv_bind H. destruct a as [a s1]. inv_bind H. destruct a0 as [out' s2].
    simplify_eq.
    rewrite (IH _ _ _ _ Ha0), (Hstep _ _ _ _ _ Ha), total_work_cons. lia.
Qed.

Lemma round_robin_body_load (i : nat) (t : Task) (nodes nodes' : list Node)
    (a : assignment) :
  round_robin_body i t nodes = Ok (a, nodes') →
  total_load nodes' = total_load nodes + Workload t.
Proof.
  unfold round_robin_body. intros H.
  apply bind_Ok in H as (k & _ & H). apply bind_Ok in H as (node & Hn & H).
  simplify_eq. apply total_load_alter.
  apply getitem_Ok in Hn. by eapply lookup_lt_Some.
Qed.

Lemma sorted_body_load (order : list nat) (i : nat) (t : Task)
    (nodes nodes' : list Node) (a : assignment) :
  sorted_body order i t nodes = Ok (a, nodes') →
  total_load nodes' = total_load nodes + Workload t.
Proof.
  unfold sorted_body. intros H.
  apply bind_Ok in H as (k & _ & H). apply bind_Ok in H as (r & _ & H).
  apply bind_Ok in H as (node & Hn & H).
  simplify_eq. apply total_load_alter.
  apply getitem_Ok in Hn. by eapply lookup_lt_Some.
Qed.

Lemma predictive_body_load (i : nat) (t : Task) (s s' : list Node * Random)
    (a : assignment) :
  predictive_body i t s = Ok (a, s') →
  total_load s'.1 = total_load s.1 + Workload t.
Proof.
  destruct s as [nodes g]. unfold predictive_body. intros H.
  pose proof (fluctuate_all_loads nodes g) as Hl.
  destruct (fluctuate_all nodes g) as [nodes1 g1]. cbn [fst] in *.
  apply bind_Ok in H as ([r x] & _ & H). apply bind_Ok in H as (node & Hn & H).
  simplify_eq. cbn [fst]. rewrite total_load_alter.
  - unfold total_load. by rewrite Hl.
  - apply getitem_Ok in Hn. by eapply lookup_lt_Some.
Qed.

Lemma total_work_perm (l1 l2 : list Task) :
  l1 ≡ₚ l2 → total_work l1 = total_work l2.
Proof.
  induction 1; rewrite ?total_work_cons; [done | lia..].
Qed.

(** X2. Whatever the strategy, a run that returns has added to the loads
    exactly the workloads of the tasks: the sum of the loads after the run
    is the sum before it plus the sum of all workloads. *)
Theorem schedule_conserves_work (alg : algorithm) (nodes : list Node)
    (tasks : list Task) (g : Random) (out : list assignment)
    (nodes' : list Node) (g' : Random) :
  schedule alg nodes tasks g = Ok (out, (nodes', g')) →
  total_load nodes' = total_load nodes + total_work tasks.
Proof.
  destruct alg; cbn [schedule]; intros H.
  - apply bind_Ok in H as ([out1 nodes1] & Hloop & H). simplify_eq.
    eapply (for_enumerate_accumulates round_robin_body total_load);
      [intros; by eapply round_robin_body_load | exact Hloop].
  - apply bind_Ok in H as ([out1 nodes1] & Hloop & H). simplify_eq.
    rewrite <-(total_work_perm _ _ (sorted_perm Z.ltb Workload tasks)).
    eapply (for_enumerate_accumulates (sorted_body _) total_load);
      [intros; by eapply sorted_body_load | exact Hloop].
  - apply bind_Ok in H as ([out1 nodes1] & Hloop & H). simplify_eq.
    eapply (for_enumerate_accumulates (sorted_body _) total_load);
      [intros; by eapply sorted_body_load | exact Hloop].
  - apply (for_enumerate_accumulates predictive_body (λ s, total_load s.1)
             (λ i t s a s', predictive_body_load i t s s' a)
             tasks 0%nat (nodes, g) out (nodes', g') H).
Qed.

(** ** Sorting what is already in order *)

Lemma sorted_of_sorted {A K} (lt : K → K → bool) (key : A → K) (l : list A) :
  StronglySorted (key_le lt key) l → sorted lt key l = l.
Proof.
  induction 1 as [|x l Hs IH Hx]; [done|].
  cbn [sorted]. rewrite IH. destruct l as [|y l']; [done|].
  apply Forall_cons in Hx as [Hxy _]. unfold key_le in Hxy.
  cbn [insert_by]. by rewrite Hxy.
Qed.

Lemma StronglySorted_imap {A B} (R : A → A → Prop) (R' : B → B → Prop)
    (l : list A) :
  ∀ f : nat → A → B,
    (∀ i j x y, R x y → R' (f i x) (f j y)) →
    StronglySorted R l → StronglySorted R' (imap f l).
Proof.
  induction l as [|x l IH]; intros f Hf Hs; [constructor|].
  apply StronglySorted_inv in Hs as [Hs Hx].
  rewrite imap_cons. constructor.
  - apply IH; [|done]. intros i j. apply Hf.
  - apply Forall_lookup. intros i b Hb.
    rewrite list_lookup_imap in Hb.
    destruct (l !! i) as [y|] eqn:E; simplify_eq/=.
    apply Hf. rewrite Forall_lookup in Hx. by eapply Hx.
Qed.

(** A sorted copy of nodes that are already in key order holds the
    positions in their order. *)
Lemma sorted_copy_of_sorted {K} (lt : K → K → bool) (key : Node → K)
    (nodes : list Node) :
  StronglySorted (key_le lt key) nodes →
  (sorted lt (key ∘ snd) (enumerate nodes)).*1 = seq 0 (length nodes).
Proof.
  intros Hs. rewrite sorted_of_sorted; [apply enumerate_fst|].
  unfold enumerate.
  apply (StronglySorted_imap (key_le lt key)); [|done].
  intros i j x y Hxy. exact Hxy.
Qed.

(** X3. On nodes listed by ascending load, as on every fresh grid, where all
    loads are 0, shortest job first is round robin over the tasks in stable
    ascending order of workload. *)
Theorem shortest_job_first_on_ordered_loads (nodes : list Node)
    (tasks : list Task) :
  StronglySorted (λ a b, Load a ≤ Load b) nodes →
  shortest_job_first nodes tasks
  = round_robin nodes (sorted Z.ltb Workload tasks).
Proof.
  intros Hs. unfold shortest_job_first, round_robin.
  rewrite round_robin_loop_sorted_body, sorted_copy_of_sorted; [done|].
  eapply StronglySorted_impl; [|exact Hs].
  unfold key_le. intros x y. lia.
Qed.

(** X4. On nodes listed by ascending cost the economic scheduler is round
    robin. *)
Theorem economic_on_ordered_costs (nodes : list Node) (tasks : list Task) :
  StronglySorted (λ a b, (Cost a <= Cost b)%Q) nodes →
  economic nodes tasks = round_robin nodes tasks.
Proof.
  intros Hs. unfold economic, round_robin.
  rewrite round_robin_loop_sorted_body, sorted_copy_of_sorted; [done|].
  eapply StronglySorted_impl; [|exact Hs].
  unfold key_le. intros x y. by rewrite Qltb_false.
Qed.

(** ** How many tasks each node receives *)

Lemma count_mod (k p m : nat) :
  (p < k)%nat →
  length (filter (λ i, i mod k = p)%nat (seq 0 m))
  = (m / k + (if decide (p < m mod k)%nat then 1 else 0))%nat.
Proof.
  intros Hp. induction m as [|m IH].
  - simpl. rewrite Nat.Div0.div_0_l, Nat.Div0.mod_0_l.
    by rewrite decide_False by lia.
  - rewrite seq_S, filter_app, length_app, IH. simpl seq.
    rewrite filter_cons, filter_nil. change (0 + m)%nat with m.
    pose proof (Nat.div_mod_eq m k) as Hm.
    pose proof (Nat.mod_upper_bound m k ltac:(lia)) as Hr.
    destruct (decide (S (m mod k) < k)%nat) as [Hlt|Hge].
    + assert (Hq : (S m / k = m / k)%nat).
      { symmetry. apply (Nat.div_unique _ _ _ (S (m mod k))); lia. }
      assert (Hr' : (S m mod k = S (m mod k))%nat).
      { symmetry. apply (Nat.mod_unique _ _ (m / k)); lia. }
      rewrite Hq, Hr'. clear Hq Hr' Hm IH.
      generalize dependent (m mod k)%nat. generalize (m / k)%nat.
      intros q r Hr Hlt. repeat case_decide; simpl; lia.
    + assert (Hq : (S m / k = S (m / k))%nat).
      { symmetry. apply (Nat.div_unique _ _ _ 0); lia. }
      assert (Hr' : (S m mod k = 0)%nat).
      { symmetry. apply (Nat.mod_unique _ _ (S (m / k))); lia. }
      rewrite Hq, Hr'. clear Hq Hr' Hm IH.
      generalize dependent (m mod k)%nat. generalize (m / k)%nat.
      intros q r Hr Hge. repeat case_decide; simpl; lia.
Qed.

Lemma length_filter_by_index {A} (P : A → Prop) `{!∀ x, Decision (P x)}
    (Q : nat → Prop) `{!∀ i, Decision (Q i)} (l : list A) (s : nat) :
  (∀ i a, l !! i = Some a → (P a ↔ Q (s + i)%nat)) →
  length (filter P l) = length (filter Q (seq s (length l))).
Proof.
  revert s. induction l as [|a l IH]; intros s Hi; [done|].
  cbn [length seq]. rewrite !filter_cons.
  assert (Ha : P a ↔ Q s).
  { rewrite (Hi 0%nat a eq_refl). by rewrite Nat.add_0_r. }
  assert (Hl : length (filter P l) = length (filter Q (seq (S s) (length l)))).
  { apply IH. intros i b Hb. rewrite (Hi (S i) b Hb).
    by rewrite Nat.add_succ_r. }
  destruct (decide (P a)), (decide (Q s)); simpl; tauto || lia.
Qed.

(** In a cyclic walk over an order that lists every position once, on
    nodes of pairwise distinct ids, the node at place [p] of the order
    receives [m / k] tasks and one more when [p < m mod k]. *)
Lemma cyclic_counts (order : list nat) (nodes : list Node)
    (tasks : list Task) (out : list assignment) (nodes' : list Node)
    (p r : nat) (node : Node) :
  nodes ≠ [] → order ≡ₚ seq 0 (length nodes) → NoDup (id <$> nodes) →
  for_enumerate (sorted_body order) 0 tasks nodes = Ok (out, nodes') →
  order !! p = Some r → nodes !! r = Some node →
  length (filter (λ a, a.2 = id node) out)
  = (length tasks / length nodes
     + (if decide (p < length tasks mod length nodes)%nat then 1 else 0))%nat.
Proof.
  intros Hne Hperm Hnd Hrun Hp Hr.
  assert (Hn : length nodes ≠ O) by (by destruct nodes).
  assert (Hlen : length order = length nodes).
  { by rewrite Hperm, length_seq. }
  assert (Hvalid : Forall (λ r, r < length nodes)%nat order).
  { rewrite Hperm. apply seq_valid. }
  assert (Hndo : NoDup order).
  { rewrite Hperm. apply NoDup_seq. }
  destruct (sorted_loop_spec order (length nodes) Hn Hlen Hvalid tasks 0 nodes
              eq_refl) as (out1 & nodes1 & Hrun1 & _ & Hout & Hidx & _).
  rewrite Hrun in Hrun1. simplify_eq.
  rewrite <-(count_mod (length nodes) p (length tasks)).
  2: { rewrite <-Hlen. by eapply lookup_lt_Some. }
  rewrite <-Hout.
  apply (length_filter_by_index (λ a, a.2 = id node)
           (λ i, i mod length nodes = p)%nat out1 0).
  intros i a Ha. simpl.
  assert (Hi : (i < length tasks)%nat).
  { rewrite <-Hout. by eapply lookup_lt_Some. }
  destruct (lookup_lt_is_Some_2 tasks i Hi) as [t Ht].
  destruct (Hidx i t Ht) as (ri & ni & Hri & Hni & Hai).
  simpl in Hri. rewrite Ha in Hai. simplify_eq. simpl. split.
  - intros Hid.
    assert (ri = r) as ->.
    { eapply (NoDup_lookup _ _ _ _ Hnd).
      - by rewrite list_lookup_fmap, Hni.
      - by rewrite list_lookup_fmap, Hr, Hid. }
    by eapply NoDup_lookup.
  - intros <-. by simplify_eq.
Qed.

Lemma StronglySorted_lookup_lt {A} (R : A → A → Prop) (l : list A)
    (i j : nat) (x y : A) :
  StronglySorted R l → (i < j)%nat →
  l !! i = Some x → l !! j = Some y → R x y.
Proof.
  intros Hs. revert i j. induction Hs as [|z l Hs IH Hz]; intros i j Hij Hi Hj.
  - done.
  - destruct j as [|j]; [lia|]. destruct i as [|i]; simpl in *.
    + simplify_eq. rewrite Forall_lookup in Hz. by eapply Hz.
    + eapply (IH i j); [lia|done..].
Qed.

(** X5. Round robin over [k] nodes of pairwise distinct ids gives node [j]
    exactly [m / k] of the [m] tasks, and one more when [j < m mod k]: the
    first [m mod k] nodes of the list take the tasks that do not divide
    evenly. *)
Theorem round_robin_counts (nodes : list Node) (tasks : list Task)
    (out : list assignment) (nodes' : list Node) (j : nat) (node : Node) :
  NoDup (id <$> nodes) →
  round_robin nodes tasks = Ok (out, nodes') →
  nodes !! j = Some node →
  length (filter (λ a, a.2 = id node) out)
  = (length tasks / length nodes
     + (if decide (j < length tasks mod length nodes)%nat then 1 else 0))%nat.
Proof.
  intros Hnd Hrun Hj.
  assert (Hne : nodes ≠ []) by (by destruct nodes).
  unfold round_robin in Hrun. rewrite round_robin_loop_sorted_body in Hrun.
  eapply (cyclic_counts (seq 0 (length nodes))); try done.
  apply lookup_seq_lt. by eapply lookup_lt_Some.
Qed.

(** In a cyclic walk over a copy sorted by some key, a node of strictly
    smaller key receives as many tasks as one of larger key, or one more. *)
Lemma sorted_walk_counts {K} (lt : K → K → bool) (key : Node → K)
    (nodes : list Node) (tasks : list Task) (out : list assignment)
    (nodes' : list Node) (n1 n2 : Node) :
  (∀ a b, lt a b = true → lt b a = false) →
  (∀ a b c, lt b a = false → lt c b = false → lt c a = false) →
  NoDup (id <$> nodes) →
  for_enumerate
    (sorted_body (sorted lt (key ∘ snd) (enumerate nodes)).*1) 0 tasks nodes
  = Ok (out, nodes') →
  n1 ∈ nodes → n2 ∈ nodes → lt (key n1) (key n2) = true →
  (length (filter (λ a, a.2 = id n2) out)
   ≤ length (filter (λ a, a.2 = id n1) out)
   ≤ length (filter (λ a, a.2 = id n2) out) + 1)%nat.
Proof.
  intros Hasym Htrans Hnd Hrun Hn1 Hn2 Hlt.
  assert (Hne : nodes ≠ []) by (intros ->; by apply elem_of_nil in Hn1).
  set (ns := sorted lt (key ∘ snd) (enumerate nodes)) in *.
  assert (Hperm : ns.*1 ≡ₚ seq 0 (length nodes)) by apply sorted_copy_perm.
  assert (Hplace : ∀ n, n ∈ nodes →
            ∃ p r, ns.*1 !! p = Some r ∧ nodes !! r = Some n
                   ∧ ns !! p = Some (r, n)).
  { intros n [r Hr]%list_elem_of_lookup.
    assert (Hin : r ∈ ns.*1).
    { rewrite Hperm. apply elem_of_seq. apply lookup_lt_Some in Hr. lia. }
    apply list_elem_of_lookup in Hin as [p Hp].
    destruct (sorted_copy_lookup lt key nodes p r Hp) as (n' & Hnp & Hn').
    exists p, r. by simplify_eq. }
  destruct (Hplace n1 Hn1) as (p1 & r1 & Hp1 & Hr1 & Hs1).
  destruct (Hplace n2 Hn2) as (p2 & r2 & Hp2 & Hr2 & Hs2).
  rewrite (cyclic_counts ns.*1 nodes tasks out nodes' p1 r1 n1) by done.
  rewrite (cyclic_counts ns.*1 nodes tasks out nodes' p2 r2 n2) by done.
  assert (Hp : (p1 < p2)%nat).
  { destruct (decide (p1 < p2)%nat) as [|Hge]; [done|]. exfalso.
    destruct (decide (p1 = p2)) as [->|Hneq].
    - simplify_eq. rewrite (Hasym _ _ Hlt) in Hlt. done.
    - pose proof (StronglySorted_lookup_lt _ ns p2 p1 _ _
                    (sorted_sorted lt (key ∘ snd) Hasym Htrans _)
                    ltac:(lia) Hs2 Hs1) as Hle.
      unfold key_le in Hle. simpl in Hle. congruence. }
  repeat case_decide; lia.
Qed.

(** X6. The economic scheduler, on nodes of pairwise distinct ids, never gives
    a node fewer tasks than a strictly more expensive one, and at most one
    task more. *)
Theorem economic_favours_cheaper_nodes (nodes : list Node)
    (tasks : list Task) (out : list assignment) (nodes' : list Node)
    (n1 n2 : Node) :
  NoDup (id <$> nodes) →
  economic nodes tasks = Ok (out, nodes') →
  n1 ∈ nodes → n2 ∈ nodes → (Cost n1 < Cost n2)%Q →
  (length (filter (λ a, a.2 = id n2) out)
   ≤ length (filter (λ a, a.2 = id n1) out)
   ≤ length (filter (λ a, a.2 = id n2) out) + 1)%nat.
Proof.
  intros Hnd Hrun Hn1 Hn2 Hlt.
  eapply (sorted_walk_counts Qltb Cost nodes tasks out nodes' n1 n2
            Qltb_asym Qltb_le_trans); try done.
  by apply Qltb_true.
Qed.

(** X7. Shortest job first, on nodes of pairwise distinct ids, never gives a
    node fewer tasks than one that entered with a strictly larger load, and
    at most one task more. *)
Theorem shortest_job_first_favours_idle_nodes (nodes : list Node)
    (tasks : list Task) (out : list assignment) (nodes' : list Node)
    (n1 n2 : Node) :
  NoDup (id <$> nodes) →
  shortest_job_first nodes tasks = Ok (out, nodes') →
  n1 ∈ nodes → n2 ∈ nodes → Load n1 < Load n2 →
  (length (filter (λ a, a.2 = id n2) out)
   ≤ length (filter (λ a, a.2 = id n1) out)
   ≤ length (filter (λ a, a.2 = id n2) out) + 1)%nat.
Proof.
  intros Hnd Hrun Hn1 Hn2 Hlt.
  eapply (sorted_walk_counts Z.ltb Load nodes
            (sorted Z.ltb Workload tasks) out nodes' n1 n2
            Zltb_asym Zltb_le_trans); try done.
  by apply Z.ltb_lt.
Qed.

(** ** Lookup by id *)

(** X8. The lookup [next(x for x in l if x["id"] == i)] returns the first entry
    of the list with the id, and raises StopIteration, and nothing else,
    exactly when no entry has the id. *)
Theorem next_by_id_first_match {A} (get_id : A → string) (l : list A)
    (i : string) :
  (∀ x, next_by_id get_id l i = Ok x
        ↔ ∃ k, l !! k = Some x ∧ get_id x = i
               ∧ ∀ j y, (j < k)%nat → l !! j = Some y → get_id y ≠ i)
  ∧ (next_by_id get_id l i = Raise StopIteration ↔ i ∉ get_id <$> l)
  ∧ (∀ e, next_by_id get_id l i = Raise e → e = StopIteration).
Proof.
  unfold next_by_id. induction l as [|y l (IH1 & IH2 & IH3)].
  - split_and!.
    + intros x. split; [done|]. by intros (k & Hk & _).
    + split; [intros _; apply not_elem_of_nil | done].
    + by intros e [= <-].
  - cbn [find]. destruct (decide (get_id y = i)) as [Hy|Hy].
    + rewrite bool_decide_eq_true_2 by done. split_and!.
      * intros x. split.
        -- intros [= <-]. exists 0%nat. split_and!; [done..|]. intros; lia.
        -- intros (k & Hk & Hx & Hfirst). destruct k as [|k].
           ++ by simplify_eq/=.
           ++ by destruct (Hfirst 0%nat y ltac:(lia) eq_refl).
      * split; [done|]. intros Hnot. exfalso. apply Hnot.
        rewrite fmap_cons, <-Hy. by left.
      * done.
    + rewrite bool_decide_eq_false_2 by done. split_and!.
      * intros x. rewrite IH1. split.
        -- intros (k & Hk & Hx & Hfirst). exists (S k).
           split_and!; [done..|]. intros [|j] z Hj Hz; simplify_eq/=; [done|].
           eapply Hfirst; [|done]. lia.
        -- intros (k & Hk & Hx & Hfirst). destruct k as [|k];
             [by simplify_eq/=|].
           exists k. split_and!; [done..|]. intros j z Hj Hz.
           apply (Hfirst (S j) z); [lia | done].
      * rewrite IH2, fmap_cons, not_elem_of_cons.
        split; [intros ?; split; [congruence | done] | by intros [_ ?]].
      * exact IH3.
Qed.


Lemma next_by_id_elem_of {A} (get_id : A → string) (l : list A) (i : string) :
  i ∈ get_id <$> l → ∃ x, next_by_id get_id l i = Ok x.
Proof.
  intros Hin. unfold next_by_id.
  destruct (find _ l) as [y|] eqn:E; [eauto|]. exfalso.
  apply list_elem_of_fmap in Hin as (x & -> & Hx).
  apply list_elem_of_In in Hx.
  pose proof (find_none _ _ E x Hx) as Hf. simpl in Hf.
  by rewrite bool_decide_eq_true_2 in Hf.
Qed.


(** ** Evaluation: rows, draws and failures *)


Lemma evaluate_one_draw (a : assignment) (tasks : list Task)
    (nodes : list Node) (g g' : Random) (r : EvalRecord) :
  evaluate_one a tasks nodes g = Ok (r, g') →
  g' = mkRandom (draws g) (S (cursor g))
  ∧ (rec_Task r, rec_Node r) = a
  ∧ ∃ node task,
      next_by_id id nodes a.2 = Ok node
      ∧ next_by_id task_id tasks a.1 = Ok task
      ∧ Bandwidth node ≠ 0 ∧ CPU node ≠ 0 ∧ Workload task ≠ -1.
Proof.
  destruct a as [tid nid]. unfold evaluate_one. intros H.
  apply bind_Ok in H as (node & Hnode & H).
  apply bind_Ok in H as (task & Htask & H).
  unfold uniform, random, next_draw in H. cbn zeta in H.
  apply bind_Ok in H as (q & Hq & H).
  apply bind_Ok in H as (d & Hd & H).
  apply bind_Ok in H as (e & He & H).
  apply bind_Ok in H as (x & Hx & H).
  apply py_div_inv in Hq as [Hbw _]. apply py_div_inv in Hd as [Hw _].
  apply py_div_inv in He as [Hcpu _].
  apply inject_Z_nonzero in Hbw, Hw, Hcpu.
  simplify_eq. split_and!; [done..|].
  exists node, task. split_and!; [done..|lia].
Qed.

(** X9. A normal return of [evaluate] has one row for each assignment, in the
    order of the assignments, carrying the assignment's task id and node
    id; it has consumed exactly one draw of the random source for each
    row. *)
Theorem evaluate_mirrors_assignments (assignments : list assignment)
    (tasks : list Task) (nodes : list Node) (g g' : Random)
    (results : list EvalRecord) :
  evaluate assignments tasks nodes g = Ok (results, g') →
  (λ r, (rec_Task r, rec_Node r)) <$> results = assignments
  ∧ length results = length assignments
  ∧ g' = mkRandom (draws g) (cursor g + length assignments).
Proof.
  revert g results. induction assignments as [|a rest IH]; intros g results H.
  - cbn [evaluate] in H. simplify_eq. split_and!; [done..|].
    destruct g'. simpl. f_equal. lia.
  - cbn [evaluate] in H.
    apply bind_Ok in H as ([r g1] & Hone & H).
    apply bind_Ok in H as ([rs g2] & Hrest & H). simplify_eq.
    apply evaluate_one_draw in Hone as (-> & Ha & _).
    destruct (IH _ _ Hrest) as (IH1 & IH2 & ->).
    split_and!.
    + by rewrite fmap_cons, IH1, Ha.
    + simpl. by rewrite IH2.
    + simpl. f_equal. lia.
Qed.

Lemma evaluate_one_of_ok (a : assignment) (tasks : list Task)
    (nodes : list Node) (g : Random) :
  Forall (λ n, 0 < Bandwidth n) nodes → assignment_ok tasks nodes a →
  ∃ r g', evaluate_one a tasks nodes g = Ok (r, g').
Proof.
  intros Hbw (node & task & Hnode & Htask & Hcpu & Hw). destruct a as [tid nid].
  destruct (evaluate_one_Ok tid nid tasks nodes g node task)
    as (latency & qos & g' & H); try done.
  - rewrite Forall_forall in Hbw. apply Hbw.
    by apply next_by_id_Ok in Hnode as [? _].
  - lia.
  - eauto.
Qed.

Lemma evaluate_of_ok (assignments : list assignment) (tasks : list Task)
    (nodes : list Node) (g : Random) :
  Forall (λ n, 0 < Bandwidth n) nodes →
  Forall (assignment_ok tasks nodes) assignments →
  ∃ results g', evaluate assignments tasks nodes g = Ok (results, g').
Proof.
  intros Hbw Hok. revert g.
  induction Hok as [|a rest Ha _ IH]; intros g; [by eexists _, _|].
  destruct (evaluate_one_of_ok a tasks nodes g Hbw Ha) as (r & g1 & H1).
  destruct (IH g1) as (rs & g2 & H2).
  exists (r :: rs), g2. cbn [evaluate]. by rewrite H1, Ok_bind, H2.
Qed.



(** ** Rounding *)





Lemma py_round_ub (ndigits : nat) (b : Z) (x : Q) :
  (x <= Qmake b (Pos.of_nat (10 ^ ndigits)))%Q →
  (py_round x ndigits <= Qmake b (Pos.of_nat (10 ^ ndigits)))%Q.
Proof.
  intros Hb. unfold py_round.
  set (s := Pos.of_nat (10 ^ ndigits)) in *.
  assert (H2 : round_half_even (x * inject_Z (Z.pos s)) ≤ b).
  { apply round_half_even_ub. unfold Qle in *. simpl in *. lia. }
  unfold Qle. simpl. nia.
Qed.

(** ** Evaluation: the size of the metrics *)

Lemma evaluate_one_metrics (a : assignment) (tasks : list Task)
    (nodes : list Node) (g g' : Random) (r : EvalRecord) :
  evaluate_one a tasks nodes g = Ok (r, g') →
  ∃ node task u,
    node ∈ nodes ∧ task ∈ tasks
    ∧ (1 # 10 <= u)%Q ∧ (u <= 15 # 10)%Q
    ∧ Bandwidth node ≠ 0 ∧ CPU node ≠ 0 ∧ Workload task + 1 ≠ 0
    ∧ Latency r = py_round (u * (10 / inject_Z (Bandwidth node))) 3
    ∧ Throughput r
      = py_round (inject_Z (Bandwidth node) / inject_Z (Workload task + 1)) 2
    ∧ QoS_Score r
      = py_round (Throughput r * Reliability node / (1 + Latency r)) 3
    ∧ Exec_Time r
      = py_round (inject_Z (Workload task) / inject_Z (CPU node)) 2.
Proof.
  destruct a as [tid nid]. unfold evaluate_one. intros H.
  apply bind_Ok in H as (node & Hnode & H).
  apply bind_Ok in H as (task & Htask & H).
  pose proof (uniform_range (1 # 10) (15 # 10) g ltac:(by vm_compute))
    as [Hu1 Hu2].
  destruct (uniform (1 # 10) (15 # 10) g) as [u g1]. cbn [fst] in *.
  apply bind_Ok in H as (q & Hq & H).
  apply bind_Ok in H as (d & Hd & H).
  apply bind_Ok in H as (e & He & H).
  apply bind_Ok in H as (x & Hx & H).
  apply py_div_inv in Hq as [Hbw ->]. apply py_div_inv in Hd as [Hw ->].
  apply py_div_inv in He as [Hcpu ->]. apply py_div_inv in Hx as [_ ->].
  apply inject_Z_nonzero in Hbw, Hw, Hcpu.
  apply next_by_id_Ok in Hnode as [Hnode _].
  apply next_by_id_Ok in Htask as [Htask _].
  simplify_eq. exists node, task, u. by split_and!.
Qed.

Lemma evaluate_Forall (P : EvalRecord → Prop) (assignments : list assignment)
    (tasks : list Task) (nodes : list Node) (g g' : Random)
    (results : list EvalRecord) :
  (∀ a g1 g2 r, evaluate_one a tasks nodes g1 = Ok (r, g2) → P r) →
  evaluate assignments tasks nodes g = Ok (results, g') →
  Forall P results.
Proof.
  intros HP. revert g results.
  induction assignments as [|a rest IH]; intros g results H;
    cbn [evaluate] in H.
  - simplify_eq. constructor.
  - apply bind_Ok in H as ([r g1] & Hone & H).
    apply bind_Ok in H as ([rs g2] & Hrest & H). simplify_eq.
    constructor; [by eapply HP | by eapply IH].
Qed.

(** X12. On nodes with bandwidth at least 10, cpu at least 1 and reliability in
    [0, 1], and tasks of non-negative workload, every row of a normal
    return of [evaluate] has a latency in [0, 1.5], a non-negative
    throughput and execution time, and a QoS score between 0 and the
    throughput. *)
Theorem evaluate_metric_bounds (assignments : list assignment)
    (tasks : list Task) (nodes : list Node) (g g' : Random)
    (results : list EvalRecord) :
  Forall (λ n, 10 ≤ Bandwidth n ∧ 1 ≤ CPU n
               ∧ (0 <= Reliability n)%Q ∧ (Reliability n <= 1)%Q) nodes →
  Forall (λ t, 0 ≤ Workload t) tasks →
  evaluate assignments tasks nodes g = Ok (results, g') →
  Forall (λ r, (0 <= Latency r)%Q ∧ (Latency r <= 3 # 2)%Q
               ∧ (0 <= Throughput r)%Q ∧ (0 <= Exec_Time r)%Q
               ∧ (0 <= QoS_Score r)%Q ∧ (QoS_Score r <= Throughput r)%Q)
         results.
Proof.
  intros Hnodes Htasks. apply evaluate_Forall.
  intros a g1 g2 r Hone.
  apply evaluate_one_metrics in Hone
    as (node & task & u & Hn & Ht & Hu1 & Hu2 & _ & _ & _
        & Hlat & Hthr & Hqos & Hexec).
  rewrite Forall_forall in Hnodes. rewrite Forall_forall in Htasks.
  destruct (Hnodes node Hn) as (Hbw & Hcpu & Hr0 & Hr1).
  specialize (Htasks task Ht). simpl in Htasks.
  assert (Hbwq : (10 <= inject_Z (Bandwidth node))%Q).
  { change 10%Q with (inject_Z 10). by rewrite <-Zle_Qle. }
  assert (Hcpuq : (1 <= inject_Z (CPU node))%Q).
  { change 1%Q with (inject_Z 1). by rewrite <-Zle_Qle. }
  assert (Hwq : (0 <= inject_Z (Workload task))%Q).
  { change 0%Q with (inject_Z 0). by rewrite <-Zle_Qle. }
  assert (Hw1q : (1 <= inject_Z (Workload task + 1))%Q).
  { change 1%Q with (inject_Z 1). rewrite <-Zle_Qle. lia. }
  set (x := (u * (10 / inject_Z (Bandwidth node)))%Q) in *.
  assert (Hx : (0 <= x)%Q ∧ (x <= 3 # 2)%Q).
  { unfold x. split.
    - apply Qmult_le_0_compat; [lra|]. apply Qle_shift_div_l; lra.
    - assert ((10 / inject_Z (Bandwidth node) <= 1)%Q)
        by (apply Qle_shift_div_r; lra).
      assert ((0 <= 10 / inject_Z (Bandwidth node))%Q)
        by (apply Qle_shift_div_l; lra).
      nra. }
  assert (Hlat0 : (0 <= Latency r)%Q).
  { rewrite Hlat. apply py_round_nonneg, Hx. }
  assert (Hlat1 : (Latency r <= 3 # 2)%Q).
  { rewrite Hlat.
    pose proof (py_round_ub 3 1500 x) as Hub.
    change (Pos.of_nat (10 ^ 3)) with 1000%positive in Hub.
    assert ((x <= 1500 # 1000)%Q) by lra. specialize (Hub H). lra. }
  assert (Hthr0 : (0 <= Throughput r)%Q).
  { rewrite Hthr. apply py_round_nonneg. apply Qle_shift_div_l; lra. }
  assert (Hexec0 : (0 <= Exec_Time r)%Q).
  { rewrite Hexec. apply py_round_nonneg. apply Qle_shift_div_l; lra. }
  set (y := (Throughput r * Reliability node / (1 + Latency r))%Q) in *.
  assert (Hy : (0 <= y)%Q ∧ (y <= Throughput r)%Q).
  { unfold y. split.
    - apply Qle_shift_div_l; [lra|]. nra.
    - apply Qle_shift_div_r; [lra|]. nra. }
  split_and!; try done.
  - rewrite Hqos. apply py_round_nonneg, Hy.
  - rewrite Hqos.
    pose proof (py_round_ub 3 (10 * Qnum (Throughput r)) y) as Hub.
    change (Pos.of_nat (10 ^ 3)) with 1000%positive in Hub.
    assert (Hden : Qden (Throughput r) = 100%positive) by (by rewrite Hthr).
    assert (Heq : (10 * Qnum (Throughput r) # 1000 == Throughput r)%Q).
    { unfold Qeq. simpl. rewrite Hden. lia. }
    rewrite Heq in Hub. apply Hub. apply Hy.
Qed.


(** ** What a run leaves unchanged *)

Lemma for_enumerate_rel {St}
    (body : nat → Task → St → result (assignment * St)) (P : St → Prop) :
  (∀ i t s a s', P s → body i t s = Ok (a, s') → P s') →
  ∀ tasks i s out s',
    P s → for_enumerate body i tasks s = Ok (out, s') → P s'.
Proof.
  intros Hstep tasks i s out s' HP H.
  eapply (for_enumerate_invariant body P (λ _, True)); [| |exact HP|exact H].
  - intros. by eapply Hstep.
  - by apply Forall_true.
Qed.

Section RunRelation.
Variable R : Node → Node → Prop.
Hypothesis R_refl : ∀ n, R n n.
Hypothesis R_add_load : ∀ n0 n w, R n0 n → R n0 (add_load w n).

Lemma sorted_body_rel (order : list nat) (nodes0 : list Node) (i : nat)
    (t : Task) (nodes nodes' : list Node) (a : assignment) :
  Forall2 R nodes0 nodes →
  sorted_body order i t nodes = Ok (a, nodes') → Forall2 R nodes0 nodes'.
Proof.
  intros HR H. unfold sorted_body in H.
  apply bind_Ok in H as (k & _ & H). apply bind_Ok in H as (r & _ & H).
  apply bind_Ok in H as (node & _ & H). simplify_eq.
  apply Forall2_alter_r; [done|]. intros. by apply R_add_load.
Qed.

Lemma round_robin_body_rel (nodes0 : list Node) (i : nat)
    (t : Task) (nodes nodes' : list Node) (a : assignment) :
  Forall2 R nodes0 nodes →
  round_robin_body i t nodes = Ok (a, nodes') → Forall2 R nodes0 nodes'.
Proof.
  intros HR H. unfold round_robin_body in H.
  apply bind_Ok in H as (k & _ & H). apply bind_Ok in H as (node & _ & H).
  simplify_eq.
  apply Forall2_alter_r; [done|]. intros. by apply R_add_load.
Qed.

Lemma cyclic_schedule_rel (alg : algorithm) (nodes : list Node)
    (tasks : list Task) (g g' : Random) (out : list assignment)
    (nodes' : list Node) :
  alg ≠ PredictiveQoSAware →
  schedule alg nodes tasks g = Ok (out, (nodes', g')) →
  g' = g ∧ Forall2 R nodes nodes'.
Proof.
  intros Halg H.
  assert (H0 : Forall2 R nodes nodes) by (by apply Forall_Forall2_diag, Forall_true).
  destruct alg; cbn [schedule] in H; [| | |done].
  - apply bind_Ok in H as ([out1 nodes1] & Hloop & H). simplify_eq.
    split; [done|].
    eapply (for_enumerate_rel round_robin_body (Forall2 R nodes));
      [|exact H0|exact Hloop].
    intros. by eapply round_robin_body_rel.
  - apply bind_Ok in H as ([out1 nodes1] & Hloop & H). simplify_eq.
    split; [done|].
    eapply (for_enumerate_rel (sorted_body _) (Forall2 R nodes));
      [|exact H0|exact Hloop].
    intros. by eapply sorted_body_rel.
  - apply bind_Ok in H as ([out1 nodes1] & Hloop & H). simplify_eq.
    split; [done|].
    eapply (for_enumerate_rel (sorted_body _) (Forall2 R nodes));
      [|exact H0|exact Hloop].
    intros. by eapply sorted_body_rel.
Qed.

Hypothesis R_fluctuate : ∀ n0 n g, R n0 n → R n0 (fluctuate n g).1.

Lemma fluctuate_all_rel (nodes0 nodes : list Node) (g : Random) :
  Forall2 R nodes0 nodes → Forall2 R nodes0 (fluctuate_all nodes g).1.
Proof.
  intros HR. revert g. induction HR as [|n0 n nodes0 nodes Hn _ IH]; intros g.
  - constructor.
  - cbn [fluctuate_all]. pose proof (R_fluctuate n0 n g Hn) as Hn'.
    destruct (fluctuate n g) as [n' g1]. specialize (IH g1).
    destruct (fluctuate_all nodes g1) as [rest g2]. by constructor.
Qed.

Lemma predictive_body_rel (nodes0 : list Node) (i : nat) (t : Task)
    (s s' : list Node * Random) (a : assignment) :
  Forall2 R nodes0 s.1 →
  predictive_body i t s = Ok (a, s') → Forall2 R nodes0 s'.1.
Proof.
  destruct s as [nodes g]. intros HR H. unfold predictive_body in H.
  pose proof (fluctuate_all_rel nodes0 nodes g HR) as H1.
  destruct (fluctuate_all nodes g) as [nodes1 g1]. cbn [fst] in *.
  apply bind_Ok in H as ([r x] & _ & H). apply bind_Ok in H as (node & _ & H).
  simplify_eq. cbn [fst].
  apply Forall2_alter_r; [done|]. intros. by apply R_add_load.
Qed.

Lemma schedule_rel (alg : algorithm) (nodes : list Node)
    (tasks : list Task) (g g' : Random) (out : list assignment)
    (nodes' : list Node) :
  schedule alg nodes tasks g = Ok (out, (nodes', g')) →
  Forall2 R nodes nodes'.
Proof.
  intros H. destruct alg.
  - by apply (cyclic_schedule_rel RoundRobin _ _ _ _ _ _ ltac:(done) H).
  - by apply (cyclic_schedule_rel ShortestJobFirst _ _ _ _ _ _ ltac:(done) H).
  - by apply (cyclic_schedule_rel Economic _ _ _ _ _ _ ltac:(done) H).
  - cbn [schedule] in H.
    apply (for_enumerate_rel predictive_body (λ s, Forall2 R nodes s.1)
             (λ i t s a s', predictive_body_rel nodes i t s s' a)
             tasks 0%nat (nodes, g) out (nodes', g')); [|exact H].
    by apply Forall_Forall2_diag, Forall_true.
Qed.
End RunRelation.

(** X14. No strategy changes the id, the memory or the cost of a node, nor the
    number of nodes; the three cyclic strategies also leave cpu, bandwidth
    and reliability, and the random source, as they were. *)
Theorem schedule_preserves_fields (alg : algorithm) (nodes : list Node)
    (tasks : list Task) (g g' : Random) (out : list assignment)
    (nodes' : list Node) :
  schedule alg nodes tasks g = Ok (out, (nodes', g')) →
  Forall2 (λ n n', id n' = id n ∧ Memory n' = Memory n ∧ Cost n' = Cost n)
          nodes nodes'
  ∧ (alg ≠ PredictiveQoSAware →
     g' = g
     ∧ Forall2 (λ n n', CPU n' = CPU n ∧ Bandwidth n' = Bandwidth n
                        ∧ Reliability n' = Reliability n) nodes nodes').
Proof.
  intros H. split.
  - eapply (schedule_rel (λ n n', id n' = id n ∧ Memory n' = Memory n
                                  ∧ Cost n' = Cost n)); [done|done| |exact H].
    intros n0 n g0 Hn. unfold fluctuate. by repeat destruct (choice _ _ _).
  - intros Halg.
    eapply (cyclic_schedule_rel
              (λ n n', CPU n' = CPU n ∧ Bandwidth n' = Bandwidth n
                       ∧ Reliability n' = Reliability n)); [done..|exact H].
Qed.

(** ** Runs on any non-empty pool *)

Lemma schedule_runs (alg : algorithm) (nodes : list Node)
    (tasks : list Task) (g : Random) :
  nodes ≠ [] →
  ∃ out nodes' g',
    schedule alg nodes tasks g = Ok (out, (nodes', g'))
    ∧ out.*1 ≡ₚ task_id <$> tasks
    ∧ Forall (λ a, a.2 ∈ id <$> nodes) out.
Proof.
  intros Hne. destruct alg; cbn [schedule].
  - destruct (cyclic_placement (seq 0 (length nodes)) nodes tasks Hne
                (length_seq _ _) (seq_valid _))
      as (out & nodes' & Hrun & H1 & H2).
    exists out, nodes', g. unfold round_robin.
    rewrite round_robin_loop_sorted_body, Hrun, H1. done.
  - destruct (cyclic_placement
                (sorted Z.ltb (Load ∘ snd) (enumerate nodes)).*1 nodes
                (sorted Z.ltb Workload tasks) Hne
                (sorted_copy_length _ _ _) (sorted_copy_valid _ _ _))
      as (out & nodes' & Hrun & H1 & H2).
    exists out, nodes', g. unfold shortest_job_first.
    rewrite Hrun, H1. split_and!; [done| |done].
    apply fmap_Permutation, sorted_perm.
  - destruct (cyclic_placement
                (sorted Qltb (Cost ∘ snd) (enumerate nodes)).*1 nodes
                tasks Hne
                (sorted_copy_length _ _ _) (sorted_copy_valid _ _ _))
      as (out & nodes' & Hrun & H1 & H2).
    exists out, nodes', g. unfold economic. rewrite Hrun, H1. done.
  - destruct (predictive_loop_spec tasks 0 nodes g Hne)
      as (out & nodes' & g' & Hrun & Hspec & _).
    destruct (predictive_run_placement _ _ _ _ Hspec) as (H1 & H2 & _).
    exists out, nodes', g'. unfold predictive_qos. rewrite Hrun, H1. done.
Qed.

Lemma schedule_inv (alg : algorithm) (nodes : list Node)
    (tasks : list Task) (g g' : Random) (out : list assignment)
    (nodes' : list Node) :
  Forall node_inv nodes → Forall (λ t, 0 < Workload t) tasks →
  schedule alg nodes tasks g = Ok (out, (nodes', g')) →
  run_inv nodes nodes'.
Proof.
  intros Hinv Hpos H. apply run_inv_refl in Hinv.
  destruct alg; cbn [schedule] in H.
  - apply bind_Ok in H as ([out1 nodes1] & Hloop & H). simplify_eq.
    eapply (for_enumerate_invariant round_robin_body (run_inv nodes)
              (λ t, 0 < Workload t)); [|done..].
    intros. by eapply round_robin_body_inv.
  - apply bind_Ok in H as ([out1 nodes1] & Hloop & H). simplify_eq.
    eapply (for_enumerate_invariant (sorted_body _) (run_inv nodes)
              (λ t, 0 < Workload t)); [| |done..].
    + intros. by eapply sorted_body_inv.
    + by rewrite sorted_perm.
  - apply bind_Ok in H as ([out1 nodes1] & Hloop & H). simplify_eq.
    eapply (for_enumerate_invariant (sorted_body _) (run_inv nodes)
              (λ t, 0 < Workload t)); [|done..].
    intros. by eapply sorted_body_inv.
  - apply (for_enumerate_invariant predictive_body
             (λ s, run_inv nodes s.1) (λ t, 0 < Workload t)
             (λ i t s a s', predictive_body_inv nodes i t s s' a)
             0%nat tasks (nodes, g) out (nodes', g') Hpos Hinv H).
Qed.

(** ** The cost total *)

Lemma Qsum_cons (x : Q) (l : list Q) : Qsum (x :: l) = (x + Qsum l)%Q.
Proof. reflexivity. Qed.

Lemma total_cost_foldl (nodes : list Node) (results : list EvalRecord)
    (acc : Q) :
  Forall (λ r, rec_Node r ∈ id <$> nodes) results →
  ∃ c, foldl (λ acc r,
                total ← acc;
                match next_by_id id nodes (rec_Node r) with
                | Ok node => Some (total + Cost node)%Q
                | Raise _ => None
                end) (Some acc) results = Some c
       ∧ (c == acc + Qsum (cost_of nodes ∘ rec_Node <$> results))%Q.
Proof.
  intros H. revert acc. induction H as [|r rs Hr _ IH]; intros acc.
  - exists acc. split; [done|]. unfold Qsum. simpl. lra.
  - destruct (next_by_id_elem_of id nodes _ Hr) as [node Hnode].
    cbn [foldl]. cbn [mbind option_bind]. rewrite Hnode.
    destruct (IH (acc + Cost node)%Q) as (c & Hc & Heq).
    exists c. split; [exact Hc|].
    rewrite Heq, fmap_cons, Qsum_cons. unfold compose at 2, cost_of at 2.
    rewrite Hnode. lra.
Qed.




Lemma cost_sum_bounds (nodes : list Node) (results : list EvalRecord)
    (lo hi : Q) :
  Forall (λ r, rec_Node r ∈ id <$> nodes) results →
  Forall (λ n, (lo <= Cost n)%Q ∧ (Cost n <= hi)%Q) nodes →
  (lo * inject_Z (Z.of_nat (length results))
   <= Qsum (cost_of nodes ∘ rec_Node <$> results))%Q
  ∧ (Qsum (cost_of nodes ∘ rec_Node <$> results)
     <= hi * inject_Z (Z.of_nat (length results)))%Q.
Proof.
  intros Hall Hcost. induction Hall as [|r rs Hr _ IH].
  - change (inject_Z (Z.of_nat (length (@nil EvalRecord)))) with 0%Q.
    change (Qsum (cost_of nodes ∘ rec_Node <$> [])) with 0%Q. split; lra.
  - destruct (next_by_id_elem_of id nodes _ Hr) as [node Hnode].
    rewrite fmap_cons, Qsum_cons. unfold compose at 1 3, cost_of at 1 3.
    rewrite Hnode.
    apply next_by_id_Ok in Hnode as [Hin _].
    rewrite Forall_forall in Hcost. destruct (Hcost node Hin) as [H1 H2].
    cbn [length]. rewrite Nat2Z.inj_succ, <-Z.add_1_r, inject_Z_plus.
    change (inject_Z 1) with 1%Q. destruct IH as [IH1 IH2]. split; lra.
Qed.


(** ** The page as a whole *)

Lemma aggregate_nonempty (results : list EvalRecord) :
  results ≠ [] →
  ∃ rate avg_qos,
    aggregate results = Ok (rate, avg_qos) ∧ (0 <= rate)%Q ∧ (rate <= 1)%Q.
Proof.
  intros Hne.
  set (n := inject_Z (Z.of_nat (length results))).
  set (c := inject_Z (Z.of_nat
                        (length (filter (λ x, SLA_Met x = CheckMark) results)))).
  assert (Hn : (0 < n)%Q).
  { unfold n, Qlt. cbn [Qnum Qden inject_Z].
    destruct results; [done|]. simpl length. lia. }
  assert (Hc : (0 <= c)%Q ∧ (c <= n)%Q).
  { pose proof (length_filter (λ x, SLA_Met x = CheckMark) results).
    unfold c, n, Qle. cbn [Qnum Qden inject_Z]. lia. }
  exists (c / n)%Q, (foldl Qplus 0 (QoS_Score <$> results) / n)%Q.
  split_and!.
  - unfold aggregate. fold n. fold c. rewrite !py_div_Ok by lra. reflexivity.
  - apply Qle_shift_div_l; lra.
  - apply Qle_shift_div_r; lra.
Qed.

Lemma evaluate_ids (assignments : list assignment) (tasks : list Task)
    (nodes : list Node) (g g' : Random) (results : list EvalRecord) :
  evaluate assignments tasks nodes g = Ok (results, g') →
  rec_Task <$> results = assignments.*1 ∧ rec_Node <$> results = assignments.*2.
Proof.
  intros H. apply evaluate_inv in H.
  induction H as [|a r l k (node & task & latency & qos & _ & _ & _ & ->) _ IH].
  - done.
  - destruct IH as [IH1 IH2]. rewrite !fmap_cons, IH1, IH2. done.
Qed.

(** X16. With at least one node and one task the page is computed for every
    strategy and every random source: it shows one row per task (the rows'
    task ids are the tasks' ids in some order, their node ids are ids of
    generated nodes), a success rate between 0 and 100, a total cost
    between 0.5 and 3 per task, and final nodes satisfying the node
    invariant. *)
Theorem simulation_page (num_nodes num_tasks : nat) (alg : algorithm)
    (g : Random) :
  (1 ≤ num_nodes)%nat → (1 ≤ num_tasks)%nat →
  ∃ page,
    simulation num_nodes num_tasks alg g = inr page
    ∧ length (page_nodes page) = num_nodes
    ∧ length (page_tasks page) = num_tasks
    ∧ length (page_results page) = num_tasks
    ∧ rec_Task <$> page_results page ≡ₚ task_id <$> page_tasks page
    ∧ Forall (λ r, rec_Node r ∈ id <$> page_nodes page) (page_results page)
    ∧ (0 <= page_sla_success_rate page)%Q
    ∧ (page_sla_success_rate page <= 100)%Q
    ∧ ((1 # 2) * inject_Z (Z.of_nat num_tasks) <= page_total_cost page)%Q
    ∧ (page_total_cost page <= 3 * inject_Z (Z.of_nat num_tasks))%Q
    ∧ Forall node_inv (page_final_nodes page)
    ∧ id <$> page_final_nodes page = id <$> page_nodes page.
Proof.
  intros Hn Hm. unfold simulation, create_nodes, create_tasks.
  pose proof (create_nodes_from_spec num_nodes 0 g) as [Hids Hrange].
  destruct (create_nodes_from 0 num_nodes g) as [nodes g1].
  pose proof (create_tasks_from_spec num_tasks 0 g1) as [Htids Htrange].
  destruct (create_tasks_from 0 num_tasks g1) as [tasks g2].
  cbn [fst] in *.
  assert (Hlen : length nodes = num_nodes).
  { apply (f_equal length) in Hids.
    by rewrite !length_fmap, length_seq in Hids. }
  assert (Htlen : length tasks = num_tasks).
  { apply (f_equal length) in Htids.
    by rewrite !length_fmap, length_seq in Htids. }
  assert (Hne : nodes ≠ []) by (intros ->; simpl in Hlen; lia).
  destruct (schedule_runs alg nodes tasks g2 Hne)
    as (out & nodes' & g3 & Hrun & Hperm & Hin).
  rewrite Hrun.
  assert (Hinv : Forall node_inv nodes').
  { eapply (schedule_inv alg nodes tasks g2 g3 out nodes'); [| |exact Hrun].
    - eapply Forall_impl; [exact Hrange|]. apply node_in_range_inv.
    - eapply Forall_impl; [exact Htrange|].
      intros t (? & _). simpl. lia. }
  assert (Hrel : Forall2 (λ n n', id n' = id n ∧ Cost n' = Cost n)
                         nodes nodes').
  { eapply (schedule_rel (λ n n', id n' = id n ∧ Cost n' = Cost n));
      [done|done| |exact Hrun].
    intros n0 n g0 Hn0. unfold fluctuate. by repeat destruct (choice _ _ _). }
  assert (Hids' : id <$> nodes' = id <$> nodes).
  { apply list_eq_Forall2, Forall2_fmap.
    apply Forall2_flip. eapply Forall2_impl; [exact Hrel|]. by intros ?? [? _]. }
  assert (Hcost : Forall (λ n, (1 # 2 <= Cost n)%Q ∧ (Cost n <= 3)%Q) nodes').
  { eapply Forall2_Forall_r; [exact Hrel|].
    eapply Forall_impl; [exact Hrange|].
    intros n (_ & _ & _ & _ & _ & H1 & H2 & _) n' [_ ->]. split; [|done].
    eapply Qle_trans; [|exact H1]. by vm_compute. }
  assert (Hok : Forall (assignment_ok tasks nodes') out).
  { rewrite Forall_forall in Hin. apply Forall_forall. intros a Ha.
    pose proof (Hin a Ha) as Ha2. rewrite <-Hids' in Ha2.
    destruct (next_by_id_elem_of id nodes' _ Ha2) as [node Hnode].
    assert (Ha1 : a.1 ∈ task_id <$> tasks).
    { rewrite <-Hperm. apply list_elem_of_fmap. by exists a. }
    destruct (next_by_id_elem_of task_id tasks _ Ha1) as [task Htask].
    exists node, task. split_and!; [done|done| |].
    - apply next_by_id_Ok in Hnode as [Hnode _].
      rewrite Forall_forall in Hinv.
      destruct (Hinv node Hnode) as (_ & _ & _ & ? & _). lia.
    - apply next_by_id_Ok in Htask as [Htask _].
      rewrite Forall_forall in Htrange.
      destruct (Htrange task Htask) as (? & _). lia. }
  destruct (evaluate_of_ok out tasks nodes' g3) as (results & g4 & Hev);
    [|exact Hok|].
  { eapply Forall_impl; [exact Hinv|]. intros n (_ & _ & _ & _ & ?). lia. }
  rewrite Hev.
  destruct (evaluate_ids _ _ _ _ _ _ Hev) as [Hrt Hrn].
  assert (Hrlen : length results = num_tasks).
  { apply (f_equal length) in Hrt. rewrite !length_fmap in Hrt.
    apply Permutation_length in Hperm. rewrite !length_fmap in Hperm. lia. }
  destruct (aggregate_nonempty results) as (rate & avg & Hagg & Hr0 & Hr1).
  { intros ->. simpl in Hrlen. lia. }
  rewrite Hagg.
  assert (Hrows : Forall (λ r, rec_Node r ∈ id <$> nodes') results).
  { apply Forall_forall. intros r Hr.
    assert (Hr2 : rec_Node r ∈ out.*2).
    { rewrite <-Hrn. apply list_elem_of_fmap. by exists r. }
    apply list_elem_of_fmap in Hr2 as (a & -> & Ha).
    rewrite Hids'. rewrite Forall_forall in Hin. by apply Hin. }
  destruct (total_cost_foldl nodes' results 0 Hrows) as (c & Hc & Hceq).
  unfold total_cost. rewrite Hc.
  destruct (cost_sum_bounds nodes' results (1 # 2) 3 Hrows Hcost)
    as [Hlo Hhi].
  rewrite Hrlen in Hlo, Hhi.
  eexists. split; [reflexivity|]. cbn.
  split_and!; try done.
  - by rewrite Hrt.
  - by rewrite <-Hids'.
  - lra.
  - lra.
  - rewrite Hceq. lra.
  - rewrite Hceq. lra.
Qed.

(** X17. Outside the sliders' ranges the page fails: with no task the
    schedulers return no assignment, the result table is empty and the mean
    divides by zero; with tasks but no node the cyclic strategies fail on
    the modulo by zero and the predictive one on the first element of an
    empty list. Nothing is displayed in either case. *)
Theorem simulation_degenerate (alg : algorithm) (g : Random) :
  (∀ num_nodes,
     simulation num_nodes 0 alg g = inl (Engine ZeroDivisionError))
  ∧ (∀ num_tasks,
       simulation 0 (S num_tasks) alg g
       = inl (Engine match alg with
                     | PredictiveQoSAware => IndexError
                     | _ => ZeroDivisionError
                     end)).
Proof.
  split.
  - intros n. unfold simulation, create_tasks. cbn [create_tasks_from].
    destruct (create_nodes n g) as [nodes g1].
    by destruct alg.
  - intros m. unfold simulation, create_nodes, create_tasks.
    cbn [create_nodes_from].
    destruct (create_tasks_from 0 (S m) g) as [tasks g2] eqn:Et.
    assert (Hlen : length tasks = S m).
    { pose proof (create_tasks_from_spec (S m) 0 g) as [Htids _].
      rewrite Et in Htids. apply (f_equal length) in Htids.
      by rewrite !length_fmap, length_seq in Htids. }
    destruct tasks as [|t ts]; [done|].
    destruct alg; cbn [schedule].
    + unfold round_robin.
      by rewrite (for_enumerate_raise _ ZeroDivisionError).
    + unfold shortest_job_first.
      destruct (sorted_cons_inv Z.ltb Workload t ts) as (y & l' & ->).
      by rewrite (for_enumerate_raise _ ZeroDivisionError).
    + unfold economic.
      by rewrite (for_enumerate_raise _ ZeroDivisionError).
    + unfold predictive_qos.
      by rewrite (for_enumerate_raise _ IndexError).
Qed.

(** ** The cost of the cyclic strategies *)










(** The three cyclic strategies as walks over a rearrangement of the
    positions of the nodes. *)
Lemma schedule_walk (alg : algorithm) (nodes : list Node) (tasks : list Task)
    (g g' : Random) (out : list assignment) (nodes' : list Node) :
  alg ≠ PredictiveQoSAware →
  schedule alg nodes tasks g = Ok (out, (nodes', g')) →
  ∃ L tasks',
    L ≡ₚ enumerate nodes ∧ length tasks' = length tasks
    ∧ (alg = Economic → L = sorted Qltb (Cost ∘ snd) (enumerate nodes))
    ∧ for_enumerate (sorted_body L.*1) 0 tasks' nodes = Ok (out, nodes').
Proof.
  intros Halg H. destruct alg; [| | |done]; cbn [schedule] in H;
    apply bind_Ok in H as ([out1 nodes1] & Hloop & H); simplify_eq.
  - exists (enumerate nodes), tasks. split_and!; [done|done|done|].
    unfold round_robin in Hloop.
    by rewrite round_robin_loop_sorted_body, <-enumerate_fst in Hloop.
  - exists (sorted Z.ltb (Load ∘ snd) (enumerate nodes)),
           (sorted Z.ltb Workload tasks).
    split_and!; [apply sorted_perm|apply sorted_length|done|exact Hloop].
  - exists (sorted Qltb (Cost ∘ snd) (enumerate nodes)), tasks.
    split_and!; [apply sorted_perm|done|done|exact Hloop].
Qed.




(** ** How far the predictive strategy moves the nodes *)





(** ** Balance of the cyclic strategies *)

(** X21. Round Robin, Shortest Job First and Economic all spread [m] tasks over
    [k] nodes of pairwise distinct ids as evenly as possible: every node
    gets [m / k] tasks, or one more when [k] does not divide [m]. *)
Theorem cyclic_strategies_balanced (alg : algorithm) (nodes : list Node)
    (tasks : list Task) (g g' : Random) (out : list assignment)
    (nodes' : list Node) (node : Node) :
  NoDup (id <$> nodes) → alg ≠ PredictiveQoSAware →
  schedule alg nodes tasks g = Ok (out, (nodes', g')) →
  node ∈ nodes →
  (length tasks / length nodes
   ≤ length (filter (λ a, a.2 = id node) out)
   ≤ length tasks / length nodes
     + (if decide (length tasks mod length nodes = 0) then 0 else 1))%nat.
Proof.
  intros Hnd Halg Hrun Hin.
  destruct (schedule_walk _ _ _ _ _ _ _ Halg Hrun)
    as (L & ts & Hp & Hl & _ & Hw).
  assert (Hne : nodes ≠ []) by (intros ->; by apply elem_of_nil in Hin).
  assert (Horder : L.*1 ≡ₚ seq 0 (length nodes)).
  { by rewrite Hp, enumerate_fst. }
  apply list_elem_of_lookup in Hin as [r Hr].
  assert (Hrin : r ∈ L.*1).
  { rewrite Horder. apply elem_of_seq. apply lookup_lt_Some in Hr. lia. }
  apply list_elem_of_lookup in Hrin as [p Hp'].
  rewrite (cyclic_counts L.*1 nodes ts out nodes' p r node Hne Horder Hnd Hw
             Hp' Hr), Hl.
  repeat case_decide; lia.
Qed.

(** ** What the random source cannot change in the result table *)

Lemma Forall2_join {A B} (P P' : A → B → Prop) (Q : B → B → Prop)
    (l : list A) (k k' : list B) :
  (∀ a r r', P a r → P' a r' → Q r r') →
  Forall2 P l k → Forall2 P' l k' → Forall2 Q k k'.
Proof.
  intros HQ H. revert k'. induction H as [|a r l k Ha _ IH]; intros k' H'.
  - apply Forall2_nil_inv_l in H' as ->. constructor.
  - apply Forall2_cons_inv_l in H' as (r' & k'' & Hr' & H' & ->).
    constructor; [by eapply HQ | by apply IH].
Qed.

Lemma sla_count_agree (rs rs' : list EvalRecord) :
  Forall2 (λ r r', SLA_Met r' = SLA_Met r) rs rs' →
  length (filter (λ r, SLA_Met r = CheckMark) rs')
  = length (filter (λ r, SLA_Met r = CheckMark) rs).
Proof.
  induction 1 as [|r r' rs rs' Hr _ IH]; [done|].
  rewrite !filter_cons, Hr. case_decide; cbn [length]; by rewrite IH.
Qed.

(** X22. Two evaluations of the same assignments on the same tasks and nodes
    agree, whatever the random sources, on every column but the latency and
    the QoS score: task, node, throughput, reliability, execution time, SLA
    time and SLA mark are the same row by row, and so is the success rate
    computed from the marks. *)
Theorem evaluate_verdicts_ignore_random (assignments : list assignment)
    (tasks : list Task) (nodes : list Node) (g g' h h' : Random)
    (rs rs' : list EvalRecord) :
  evaluate assignments tasks nodes g = Ok (rs, g') →
  evaluate assignments tasks nodes h = Ok (rs', h') →
  Forall2 (λ r r',
             rec_Task r' = rec_Task r ∧ rec_Node r' = rec_Node r
             ∧ Throughput r' = Throughput r
             ∧ rec_Reliability r' = rec_Reliability r
             ∧ Exec_Time r' = Exec_Time r
             ∧ rec_SLA_Time r' = rec_SLA_Time r
             ∧ SLA_Met r' = SLA_Met r) rs rs'
  ∧ (∀ rate avg rate' avg',
       aggregate rs = Ok (rate, avg) → aggregate rs' = Ok (rate', avg') →
       rate' = rate).
Proof.
  intros H1 H2. apply evaluate_inv in H1, H2.
  assert (HF : Forall2 (λ r r',
             rec_Task r' = rec_Task r ∧ rec_Node r' = rec_Node r
             ∧ Throughput r' = Throughput r
             ∧ rec_Reliability r' = rec_Reliability r
             ∧ Exec_Time r' = Exec_Time r
             ∧ rec_SLA_Time r' = rec_SLA_Time r
             ∧ SLA_Met r' = SLA_Met r) rs rs').
  { eapply Forall2_join; [|exact H1|exact H2].
    intros a r r' (node & task & lat & qos & Hn & Ht & _ & ->)
           (node' & task' & lat' & qos' & Hn' & Ht' & _ & ->).
    rewrite Hn in Hn'. rewrite Ht in Ht'. by simplify_eq. }
  split; [exact HF|].
  intros rate avg rate' avg' Ha Ha'. unfold aggregate in Ha, Ha'.
  apply bind_Ok in Ha as (a1 & _ & Ha). apply bind_Ok in Ha as (x & Hx & Ha).
  apply bind_Ok in Ha' as (a2 & _ & Ha').
  apply bind_Ok in Ha' as (x' & Hx' & Ha').
  simplify_eq.
  rewrite (sla_count_agree rs rs') in Hx'.
  - rewrite <-(Forall2_length _ _ _ HF) in Hx'. congruence.
  - eapply Forall2_impl; [exact HF|]. by intros r r' (_ & _ & _ & _ & _ & _ & ?).
Qed.

(** ** Instances of the further properties on the sample data *)

(** Runs the left-hand side of an equation and offers the value. *)
Ltac run_lhs :=
  lazymatch goal with
  | |- ?l = _ =>
      let v := eval vm_compute in l in
      transitivity v; [vm_compute; reflexivity | reflexivity]
  end.

Lemma sample_nodes_NoDup : NoDup (id <$> sample_nodes).
Proof.
  apply (bool_decide_unpack (NoDup (id <$> sample_nodes))).
  vm_compute. exact I.
Defined.

Lemma loaded_nodes_NoDup : NoDup (id <$> loaded_nodes).
Proof.
  apply (bool_decide_unpack (NoDup (id <$> loaded_nodes))).
  vm_compute. exact I.
Defined.


Lemma schedule_conserves_work_witness :
  ∃ out nodes' g',
    schedule PredictiveQoSAware sample_nodes sample_tasks sample_random
    = Ok (out, (nodes', g'))
    ∧ total_load nodes' = 25.
Proof.
  destruct (schedule_runs PredictiveQoSAware sample_nodes sample_tasks
              sample_random sample_nodes_nonempty)
    as (out & nodes' & g' & Hrun & _).
  exists out, nodes', g'. split; [exact Hrun|].
  exact (schedule_conserves_work _ _ _ _ _ _ _ Hrun).
Defined.

Lemma shortest_job_first_on_ordered_loads_witness :
  StronglySorted (λ a b, Load a ≤ Load b) loaded_nodes
  ∧ shortest_job_first loaded_nodes sample_tasks
    = round_robin loaded_nodes (sorted Z.ltb Workload sample_tasks).
Proof.
  assert (H : StronglySorted (λ a b, Load a ≤ Load b) loaded_nodes).
  { unfold loaded_nodes. repeat constructor; simpl; lia. }
  split; [exact H|].
  exact (shortest_job_first_on_ordered_loads loaded_nodes sample_tasks H).
Defined.

Lemma economic_on_ordered_costs_witness :
  StronglySorted (λ a b, (Cost a <= Cost b)%Q) (drop 1 sample_nodes)
  ∧ economic (drop 1 sample_nodes) sample_tasks
    = round_robin (drop 1 sample_nodes) sample_tasks.
Proof.
  assert (H : StronglySorted (λ a b, (Cost a <= Cost b)%Q)
                (drop 1 sample_nodes)).
  { unfold sample_nodes. cbn [drop].
    repeat constructor; simpl; by vm_compute. }
  split; [exact H|].
  exact (economic_on_ordered_costs (drop 1 sample_nodes) sample_tasks H).
Defined.

Lemma round_robin_counts_witness :
  ∃ out nodes',
    round_robin sample_nodes sample_tasks = Ok (out, nodes')
    ∧ length (filter (λ a, a.2 = "Node-1") out) = 2%nat
    ∧ length (filter (λ a, a.2 = "Node-3") out) = 1%nat.
Proof.
  do 2 eexists. split; [run_lhs|].
  split.
  - refine (round_robin_counts sample_nodes sample_tasks _ _ 0
              (mkNode "Node-1" 5 16 100 (9 # 10) 3 0)
              sample_nodes_NoDup _ eq_refl).
    vm_compute. reflexivity.
  - refine (round_robin_counts sample_nodes sample_tasks _ _ 2
              (mkNode "Node-3" 8 32 150 (99 # 100) (3 # 2) 0)
              sample_nodes_NoDup _ eq_refl).
    vm_compute. reflexivity.
Defined.

Lemma economic_favours_cheaper_nodes_witness :
  ∃ out nodes',
    economic sample_nodes sample_tasks = Ok (out, nodes')
    ∧ (length (filter (λ a, a.2 = "Node-1") out)
       ≤ length (filter (λ a, a.2 = "Node-2") out)
       ≤ length (filter (λ a, a.2 = "Node-1") out) + 1)%nat.
Proof.
  do 2 eexists. split; [run_lhs|].
  refine (economic_favours_cheaper_nodes sample_nodes sample_tasks _ _
            (mkNode "Node-2" 3 8 60 (85 # 100) (1 # 2) 0)
            (mkNode "Node-1" 5 16 100 (9 # 10) 3 0)
            sample_nodes_NoDup _ _ _ _).
  - vm_compute. reflexivity.
  - unfold sample_nodes. repeat constructor.
  - unfold sample_nodes. repeat constructor.
  - by vm_compute.
Defined.

Lemma shortest_job_first_favours_idle_nodes_witness :
  ∃ out nodes',
    shortest_job_first loaded_nodes sample_tasks = Ok (out, nodes')
    ∧ (length (filter (λ a, a.2 = "Node-2") out)
       ≤ length (filter (λ a, a.2 = "Node-1") out)
       ≤ length (filter (λ a, a.2 = "Node-2") out) + 1)%nat.
Proof.
  do 2 eexists. split; [run_lhs|].
  refine (shortest_job_first_favours_idle_nodes loaded_nodes sample_tasks _ _
            (mkNode "Node-1" 5 16 100 (9 # 10) 3 0)
            (mkNode "Node-2" 3 8 60 (85 # 100) (1 # 2) 50)
            loaded_nodes_NoDup _ _ _ _).
  - vm_compute. reflexivity.
  - unfold loaded_nodes. repeat constructor.
  - unfold loaded_nodes. repeat constructor.
  - simpl. lia.
Defined.

Lemma evaluate_mirrors_assignments_witness :
  ∃ results g',
    evaluate [("Task-2", "Node-3"); ("Task-1", "Node-1")] sample_tasks
             sample_nodes sample_random = Ok (results, g')
    ∧ (λ r, (rec_Task r, rec_Node r)) <$> results
      = [("Task-2", "Node-3"); ("Task-1", "Node-1")]
    ∧ length results = 2%nat
    ∧ g' = mkRandom (draws sample_random) 2.
Proof.
  destruct (evaluate [("Task-2", "Node-3"); ("Task-1", "Node-1")]
              sample_tasks sample_nodes sample_random)
    as [[results g']|e] eqn:E; [|vm_compute in E; discriminate E].
  exists results, g'. split; [reflexivity|].
  exact (evaluate_mirrors_assignments _ _ _ _ _ _ E).
Defined.



Lemma evaluate_metric_bounds_witness :
  ∃ results g',
    evaluate [("Task-2", "Node-3"); ("Task-1", "Node-1")] sample_tasks
             sample_nodes sample_random = Ok (results, g')
    ∧ Forall (λ r, (0 <= Latency r)%Q ∧ (Latency r <= 3 # 2)%Q
                   ∧ (0 <= Throughput r)%Q ∧ (0 <= Exec_Time r)%Q
                   ∧ (0 <= QoS_Score r)%Q ∧ (QoS_Score r <= Throughput r)%Q)
             results.
Proof.
  destruct (evaluate [("Task-2", "Node-3"); ("Task-1", "Node-1")]
              sample_tasks sample_nodes sample_random)
    as [[results g']|e] eqn:E; [|vm_compute in E; discriminate E].
  exists results, g'. split; [reflexivity|].
  refine (evaluate_metric_bounds _ sample_tasks sample_nodes _ _ _ _ _ E).
  - unfold sample_nodes.
    repeat first [apply Forall_nil_2 | apply Forall_cons_2]; simpl;
      split_and!; try lia; by vm_compute.
  - unfold sample_tasks.
    repeat first [apply Forall_nil_2 | apply Forall_cons_2]; simpl; lia.
Defined.


Lemma schedule_preserves_fields_witness :
  ∃ out nodes' g',
    schedule PredictiveQoSAware sample_nodes sample_tasks sample_random
    = Ok (out, (nodes', g'))
    ∧ Forall2 (λ n n', id n' = id n ∧ Memory n' = Memory n
                       ∧ Cost n' = Cost n) sample_nodes nodes'.
Proof.
  destruct (schedule_runs PredictiveQoSAware sample_nodes sample_tasks
              sample_random sample_nodes_nonempty)
    as (out & nodes' & g' & Hrun & _).
  exists out, nodes', g'. split; [exact Hrun|].
  exact (proj1 (schedule_preserves_fields _ _ _ _ _ _ _ Hrun)).
Defined.


Lemma simulation_page_witness :
  ∃ page,
    simulation 3 5 PredictiveQoSAware sample_random = inr page
    ∧ length (page_results page) = 5%nat
    ∧ (0 <= page_sla_success_rate page)%Q
    ∧ (page_sla_success_rate page <= 100)%Q
    ∧ (page_total_cost page <= 15)%Q
    ∧ Forall node_inv (page_final_nodes page).
Proof.
  destruct (simulation_page 3 5 PredictiveQoSAware sample_random
              ltac:(lia) ltac:(lia))
    as (page & Hrun & _ & _ & Hlen & _ & _ & H0 & H100 & _ & Hc & Hinv & _).
  exists page.
  split_and!; [exact Hrun|exact Hlen|exact H0|exact H100|exact Hc|exact Hinv].
Defined.




Lemma cyclic_strategies_balanced_witness :
  ∃ out nodes',
    schedule Economic sample_nodes sample_tasks sample_random
    = Ok (out, (nodes', sample_random))
    ∧ (1 ≤ length (filter (λ a, a.2 = "Node-1") out) ≤ 2)%nat.
Proof.
  do 2 eexists. split; [run_lhs|].
  refine (cyclic_strategies_balanced Economic sample_nodes sample_tasks
            sample_random sample_random _ _
            (mkNode "Node-1" 5 16 100 (9 # 10) 3 0)
            sample_nodes_NoDup _ _ _).
  - done.
  - run_lhs.
  - unfold sample_nodes. repeat constructor.
Defined.

Lemma evaluate_verdicts_ignore_random_witness :
  ∃ rs g' rs' h',
    evaluate [("Task-2", "Node-3"); ("Task-1", "Node-1")] sample_tasks
             sample_nodes sample_random = Ok (rs, g')
    ∧ evaluate [("Task-2", "Node-3"); ("Task-1", "Node-1")] sample_tasks
               sample_nodes (mkRandom (draws sample_random) 5) = Ok (rs', h')
    ∧ Forall2 (λ r r', Exec_Time r' = Exec_Time r ∧ SLA_Met r' = SLA_Met r)
              rs rs'.
Proof.
  destruct (evaluate [("Task-2", "Node-3"); ("Task-1", "Node-1")]
              sample_tasks sample_nodes sample_random)
    as [[rs g']|e] eqn:E; [|vm_compute in E; discriminate E].
  destruct (evaluate [("Task-2", "Node-3"); ("Task-1", "Node-1")]
              sample_tasks sample_nodes (mkRandom (draws sample_random) 5))
    as [[rs' h']|e] eqn:E'; [|vm_compute in E'; discriminate E'].
  exists rs, g', rs', h'. split; [reflexivity|]. split; [reflexivity|].
  eapply Forall2_impl;
    [exact (proj1 (evaluate_verdicts_ignore_random _ _ _ _ _ _ _ _ _ E E'))|].
  by intros r r' (_ & _ & _ & _ & ? & _ & ?).
Defined.
